(** * Gematria: scoring, tokenisation and the words store

    A shallow embedding of [gematria.py] and the properties of its three
    scoring functions, its tokeniser and its SQLite-backed store.

    Python strings are sequences of Unicode code points; they are modelled
    as [list Z], one integer per code point, so that [ord] is the identity.
    The built-in string methods the program calls ([str.lower],
    [str.isalpha], [str.split]) follow CPython's implementation.  Their
    behaviour on ASCII is written out; the classification of the code points
    from U+0080 on comes from the interpreter's Unicode database, which is a
    parameter of the development ([unicode_db]). *)

From Stdlib Require Import ZArith List Ascii String Bool Lia.
From stdpp Require Import base tactics option list numbers countable gmap.

Local Open Scope Z_scope.

(** ** Python strings *)

Abbreviation pystr := (list Z).

(** [ord] of a one-character ASCII literal. *)
Definition ord (a : ascii) : Z := Z.of_N (N_of_ascii a).

(** A string literal of the source, as its code points. *)
Definition py (s : string) : pystr := map ord (list_ascii_of_string s).

(** Python's [sum]: a left fold starting from 0. *)
Definition sum (l : list Z) : Z := foldl Z.add 0 l.

(** ** The Unicode database

    What CPython looks up in its character database for one code point.
    Only the rows of the non-ASCII code points are consulted. *)
Record unicode_db := {
  db_alpha : Z -> bool;            (* general category Lu, Ll, Lt, Lm or Lo *)
  db_lower : Z -> list Z;          (* full lower-case mapping *)
  db_cased : Z -> bool;            (* derived property Cased *)
  db_case_ignorable : Z -> bool;   (* derived property Case_Ignorable *)
}.

Definition in_range (lo hi c : Z) : bool := (lo <=? c) && (c <=? hi).

Definition is_ascii (c : Z) : bool := in_range 0 127 c.
Definition ascii_upper (c : Z) : bool := in_range 65 90 c.
Definition ascii_lower (c : Z) : bool := in_range 97 122 c.
Definition ascii_letter (c : Z) : bool := ascii_upper c || ascii_lower c.

(** GREEK CAPITAL LETTER SIGMA and the two small sigmas. *)
Definition CAPITAL_SIGMA : Z := 931.
Definition FINAL_SIGMA : Z := 962.
Definition SMALL_SIGMA : Z := 963.

(** [str.isspace] of one code point: CPython's [_PyUnicode_IsWhitespace]. *)
Definition isspace (c : Z) : bool :=
  in_range 9 13 c || in_range 28 32 c || (c =? 133) || (c =? 160)
  || (c =? 5760) || in_range 8192 8202 c || (c =? 8232) || (c =? 8233)
  || (c =? 8239) || (c =? 8287) || (c =? 12288).

Section Strings.

Context (U : unicode_db).

(** [char.isalpha()] for a one-character string. *)
Definition isalpha (c : Z) : bool :=
  if is_ascii c then ascii_letter c else db_alpha U c.

Definition is_cased (c : Z) : bool :=
  if is_ascii c then ascii_letter c else db_cased U c.

(** In ASCII: apostrophe, full stop, colon, circumflex, grave accent. *)
Definition is_case_ignorable (c : Z) : bool :=
  if is_ascii c
  then (c =? 39) || (c =? 46) || (c =? 58) || (c =? 94) || (c =? 96)
  else db_case_ignorable U c.

(** [_PyUnicode_ToLowerFull]: one code point may lower to several. *)
Definition tolower_full (c : Z) : list Z :=
  if is_ascii c then [if ascii_upper c then c + 32 else c]
  else db_lower U c.

(** The nearest code point that is not case-ignorable, if any. *)
Definition first_cased_context (l : list Z) : option Z :=
  find (fun c => negb (is_case_ignorable c)) l.

(** [handle_capital_sigma]: [before] holds the code points in front of
    the sigma, nearest first; [after] those behind it. *)
Definition handle_capital_sigma (before after : list Z) : Z :=
  let preceded :=
    match first_cased_context before with
    | Some c => is_cased c
    | None => false
    end in
  let followed :=
    match first_cased_context after with
    | Some c => is_cased c
    | None => false
    end in
  if preceded && negb followed then FINAL_SIGMA else SMALL_SIGMA.

(** [lower_ucs4]: the lower-casing of the code point at one position. *)
Definition lower_ucs4 (before : list Z) (c : Z) (after : list Z) : list Z :=
  if c =? CAPITAL_SIGMA then [handle_capital_sigma before after]
  else tolower_full c.

Fixpoint do_lower (before : list Z) (s : pystr) : pystr :=
  match s with
  | [] => []
  | c :: rest => lower_ucs4 before c rest ++ do_lower (c :: before) rest
  end.

(** [word.lower()] *)
Definition lower (word : pystr) : pystr := do_lower [] word.

(** [word.isalpha()]: every character is a letter, and there is one. *)
Definition str_isalpha (word : pystr) : bool :=
  match word with
  | [] => false
  | _ => forallb isalpha word
  end.

(** ** The three scorers *)

(** [sum(ord(char) - 96 for char in word.lower() if char.isalpha())] *)
Definition calculate_gematria (word : pystr) : Z :=
  sum (map (fun char => char - 96) (List.filter isalpha (lower word))).

End Strings.

(** The two value tables, keyed by the code point of the letter. *)
Definition hebrew_values : gmap Z Z :=
  list_to_map
    [ (ord "a", 1); (ord "b", 2); (ord "c", 3); (ord "d", 4); (ord "e", 5);
      (ord "f", 6); (ord "g", 7); (ord "h", 8); (ord "i", 9);
      (ord "k", 10); (ord "l", 20); (ord "m", 30); (ord "n", 40);
      (ord "o", 50); (ord "p", 60); (ord "q", 70); (ord "r", 80);
      (ord "s", 90); (ord "t", 100); (ord "u", 200); (ord "x", 300);
      (ord "y", 400); (ord "z", 500); (ord "j", 600);
      (ord "v", 700); (ord "w", 900) ].

Definition english_values : gmap Z Z :=
  list_to_map
    [ (ord "a", 6); (ord "b", 12); (ord "c", 18); (ord "d", 24);
      (ord "e", 30); (ord "f", 36); (ord "g", 42); (ord "h", 48);
      (ord "i", 54);
      (ord "j", 60); (ord "k", 66); (ord "l", 72); (ord "m", 78);
      (ord "n", 84); (ord "o", 90); (ord "p", 96); (ord "q", 102);
      (ord "r", 108);
      (ord "s", 114); (ord "t", 120); (ord "u", 126); (ord "v", 132);
      (ord "w", 138); (ord "x", 144); (ord "y", 150); (ord "z", 156) ].

(** [char in d] and [d[char]] for a dictionary [d]; the subscript is only
    ever evaluated under the membership test, so its [KeyError] case never
    arises and is read as 0. *)
Definition contains (d : gmap Z Z) (char : Z) : bool :=
  bool_decide (is_Some (d !! char)).
Definition subscript (d : gmap Z Z) (char : Z) : Z := default 0 (d !! char).

Section Scorers.

Context (U : unicode_db).

(** [sum(hebrew_values[char] for char in word.lower()
        if char in hebrew_values)] *)
Definition calculate_hebrew_gematria (word : pystr) : Z :=
  sum (map (subscript hebrew_values)
           (List.filter (contains hebrew_values) (lower U word))).

(** [sum(english_values[char] for char in word.lower()
        if char in english_values)] *)
Definition calculate_english_gematria (word : pystr) : Z :=
  sum (map (subscript english_values)
           (List.filter (contains english_values) (lower U word))).

End Scorers.

(** An excerpt of the database CPython 3.11 ships (Unicode 14): the rows of
    the Latin-1 Supplement, U+0080..U+00FF, and of the Greek letters
    U+0391..U+03CE.  Code points of other blocks are not part of the
    excerpt and read as caseless non-letters. *)
Definition ucd_excerpt : unicode_db := {|
  db_alpha c :=
    (c =? 170) || (c =? 181) || (c =? 186) || in_range 192 214 c
    || in_range 216 246 c || in_range 248 255 c
    || in_range 913 929 c || in_range 931 974 c;
  db_lower c :=
    if in_range 192 214 c || in_range 216 222 c
       || in_range 913 929 c || in_range 931 939 c
    then [c + 32] else [c];
  db_cased c :=
    (c =? 170) || (c =? 181) || (c =? 186) || in_range 192 214 c
    || in_range 216 246 c || in_range 248 255 c
    || in_range 913 929 c || in_range 931 974 c;
  db_case_ignorable c :=
    (c =? 168) || (c =? 173) || (c =? 175) || (c =? 180) || in_range 183 184 c
|}.

(** The simple score as the specification words it: every ASCII letter adds
    (lowercase code point) - (code point of 'a') + 1, every other character
    adds nothing. *)
Definition lowercase_codepoint (c : Z) : Z :=
  if ascii_upper c then c + 32 else c.

Definition simpleScore (word : pystr) : Z :=
  sum (map (fun c => if ascii_letter c
                     then lowercase_codepoint c - ord "a" + 1 else 0) word).

(** The sum both table-based scorers take, over a string that is already
    lowercased. *)
Definition table_score (d : gmap Z Z) (s : pystr) : Z :=
  sum (map (subscript d) (List.filter (contains d) s)).

(** What one code point of the word adds to a table-based score: the table
    summed over what the code point lowers to.  A capital sigma lowers to
    one of the small sigmas, which neither table holds. *)
Definition letter_value (U : unicode_db) (d : gmap Z Z) (c : Z) : Z :=
  if c =? CAPITAL_SIGMA then 0 else table_score d (tolower_full U c).

(** ** Tokens *)

(** [text.split()]: the maximal runs of characters that are not white
    space, in order.  [cur] is the run being read, last character first. *)
Fixpoint split_from (cur : pystr) (text : pystr) : list pystr :=
  match text with
  | [] => match cur with [] => [] | _ => [rev cur] end
  | c :: rest =>
      if isspace c
      then match cur with
           | [] => split_from [] rest
           | _ => rev cur :: split_from [] rest
           end
      else split_from (c :: cur) rest
  end.

Definition split (text : pystr) : list pystr := split_from [] text.

Definition not_space (c : Z) : Prop := isspace c = false.

(** [set(word for word in text.split() if word.isalpha())] *)
Definition words_of (U : unicode_db) (text : pystr) : gset pystr :=
  list_to_set (List.filter (str_isalpha U) (split text)).

(** ** Exceptions, the log and the store *)

Inductive exn :=
  | OperationalError (msg : string)   (* raised by sqlite3 *)
  | OverflowError (msg : string)      (* raised by sqlite3 for a parameter *)
  | UnicodeEncodeError (msg : string) (* raised by sqlite3 for a parameter *)
  | UnboundLocalError (name : string)
  | OSError (msg : string).           (* raised while reading the input file *)

Inductive outcome (A : Type) :=
  | Returned (a : A)
  | Raised (e : exn).
Arguments Returned {A} a.
Arguments Raised {A} e.

(** One record per call of the logger, by the message it formats. *)
Inductive log_record :=
  | UnsupportedFormat (file_ext : pystr)                (* logger.warning *)
  | FileError (file_path : pystr) (e : exn)             (* logger.error *)
  | CreateError (e : exn)                               (* logger.error *)
  | InsertError (e : exn)                               (* logger.error *)
  | Processed (word : pystr) (simple hebrew english : Z). (* logger.info *)

Inductive level := INFO | WARNING | ERROR.

Definition level_of (r : log_record) : level :=
  match r with
  | UnsupportedFormat _ => WARNING
  | FileError _ _ | CreateError _ | InsertError _ => ERROR
  | Processed _ _ _ _ => INFO
  end.

(** A row of the table [words]. *)
Record row := {
  row_word : pystr;
  simple_gematria : Z;
  hebrew_gematria : Z;
  english_gematria : Z;
}.

(** What the storage does to one connection: nothing, or it refuses to
    open, or the statement fails (disk full, corrupt file), or the commit
    does. *)
Inductive fault := NoFault | ConnectFails | ExecuteFails | CommitFails.

(** The world the program runs in: the table [words] of [gematria.db]
    ([None] while it has not been created), what the logger has emitted
    (oldest first), and the failures the storage has in store for the
    coming connections, one entry per [sqlite3.connect] (none once the list
    is used up). *)
Record world := {
  table : option (list row);
  report : list log_record;
  faults : list fault;
}.

Definition M (A : Type) : Type := world -> outcome A * world.

Definition ret {A} (a : A) : M A := fun w => (Returned a, w).

Definition raise {A} (e : exn) : M A := fun w => (Raised e, w).

Definition bind {A B} (m : M A) (k : A -> M B) : M B :=
  fun w =>
    match m w with
    | (Returned a, w1) => k a w1
    | (Raised e, w1) => (Raised e, w1)
    end.

Notation "'do' x <- m ; k" := (bind m (fun x => k))
  (at level 10, x name, m at level 100, k at level 200).

(** [except Exception as e: handler]: applied to what the [try] block did. *)
Definition except {A} (tried : outcome A * world) (handler : exn -> M A)
  : outcome A * world :=
  match tried with
  | (Returned a, w) => (Returned a, w)
  | (Raised e, w) => handler e w
  end.

(** [finally: cleanup]: runs in every case; an exception of the clean-up
    replaces the outcome so far. *)
Definition finally {A} (sofar : outcome A * world) (cleanup : M unit)
  : outcome A * world :=
  let (r, w) := sofar in
  match cleanup w with
  | (Returned _, w1) => (r, w1)
  | (Raised e, w1) => (Raised e, w1)
  end.

Definition logger (r : log_record) : M unit :=
  fun w => (Returned tt,
            {| table := table w; report := report w ++ [r]; faults := faults w |}).

(** *** sqlite3 *)

(** A connection: the failure the storage holds for it, and the contents
    of the table inside the transaction it has open, if it has one. *)
Record connection := {
  conn_fault : fault;
  pending : option (list row);
}.

Definition sqlite3_connect : M connection :=
  fun w =>
    let f := match faults w with [] => NoFault | f :: _ => f end in
    let w1 := {| table := table w; report := report w; faults := tail (faults w) |} in
    match f with
    | ConnectFails => (Raised (OperationalError "unable to open database file"), w1)
    | _ => (Returned {| conn_fault := f; pending := None |}, w1)
    end.

Definition is_execute_fault (f : fault) : bool :=
  match f with ExecuteFails => true | _ => false end.

Definition is_commit_fault (f : fault) : bool :=
  match f with CommitFails => true | _ => false end.

(** [CREATE TABLE IF NOT EXISTS words (word TEXT PRIMARY KEY, ...)].  The
    sqlite3 module opens no transaction for it: it takes effect at once. *)
Definition execute_create (conn : connection) : M connection :=
  fun w =>
    if is_execute_fault (conn_fault conn)
    then (Raised (OperationalError "disk I/O error"), w)
    else (Returned conn,
          {| table := match table w with None => Some [] | Some t => Some t end;
             report := report w; faults := faults w |}).

Definition has_word (t : list row) (word : pystr) : bool :=
  existsb (fun r => bool_decide (row_word r = word)) t.

(** [INSERT OR IGNORE]: a row whose key is taken is dropped. *)
Definition insert_or_ignore (r : row) (t : list row) : list row :=
  if has_word t (row_word r) then t else t ++ [r].

(** What sqlite3 can bind to the parameters of a statement.  A [str] goes
    in as its UTF-8 encoding: it must hold no surrogate (and nothing that
    is no code point at all), and no more than [INT_MAX] bytes.  An [int]
    must fit a signed 64-bit integer. *)
Definition is_scalar_value (c : Z) : bool :=
  in_range 0 55295 c || in_range 57344 1114111 c.

Definition utf8_length (s : pystr) : Z :=
  sum (map (fun c => if c <? 128 then 1 else if c <? 2048 then 2
                     else if c <? 65536 then 3 else 4) s).

Definition INT_MAX : Z := 2 ^ 31 - 1.

Definition fits_int64 (v : Z) : bool := in_range (- 2 ^ 63) (2 ^ 63 - 1) v.

(** Binding the four parameters of the INSERT, in their order: the
    exception of the first that cannot be bound, if there is one. *)
Definition bind_parameters (r : row) : option exn :=
  if negb (forallb is_scalar_value (row_word r))
  then Some (UnicodeEncodeError "surrogates not allowed")
  else if INT_MAX <? utf8_length (row_word r)
  then Some (OverflowError "string longer than INT_MAX bytes")
  else if fits_int64 (simple_gematria r) && fits_int64 (hebrew_gematria r)
          && fits_int64 (english_gematria r)
  then None
  else Some (OverflowError "Python int too large to convert to SQLite INTEGER").

(** [INSERT OR IGNORE INTO words (...) VALUES (?, ?, ?, ?)], inside a
    transaction that the module opens when there is none.  The statement
    is prepared (which needs the table) before its parameters are bound. *)
Definition execute_insert (conn : connection) (r : row) : M connection :=
  fun w =>
    if is_execute_fault (conn_fault conn)
    then (Raised (OperationalError "disk I/O error"), w)
    else
      match (match pending conn with Some t => Some t | None => table w end) with
      | None => (Raised (OperationalError "no such table: words"), w)
      | Some t =>
          match bind_parameters r with
          | Some e => (Raised e, w)
          | None =>
              (Returned {| conn_fault := conn_fault conn;
                           pending := Some (insert_or_ignore r t) |}, w)
          end
      end.

(** [conn.commit()]: does nothing without an open transaction. *)
Definition commit (conn : connection) : M unit :=
  fun w =>
    match pending conn with
    | None => (Returned tt, w)
    | Some t =>
        if is_commit_fault (conn_fault conn)
        then (Raised (OperationalError "disk I/O error"), w)
        else (Returned tt,
              {| table := Some t; report := report w; faults := faults w |})
    end.

(** [conn.close()]: what was not committed is lost with the connection. *)
Definition close (conn : connection) : M unit := ret tt.

(** *** The two store operations *)

Definition create_database : M unit :=
  fun w =>
    (* conn = sqlite3.connect('gematria.db'), outside the try *)
    match sqlite3_connect w with
    | (Raised e, w1) => (Raised e, w1)
    | (Returned conn, w1) =>
        let tried := (do c <- execute_create conn; commit c) w1 in
        let handled := except tried (fun e => logger (CreateError e)) in
        finally handled (close conn)
    end.

Definition insert_word (word : pystr)
           (simple_value hebrew_value english_value : Z) : M unit :=
  fun w =>
    let r := {| row_word := word; simple_gematria := simple_value;
                hebrew_gematria := hebrew_value;
                english_gematria := english_value |} in
    (* the try block; the local [conn] is bound once connect has returned *)
    let '(conn, tried) :=
      match sqlite3_connect w with
      | (Raised e, w1) => (None, (Raised e, w1))
      | (Returned c, w1) =>
          (Some c, (do c' <- execute_insert c r; commit c') w1)
      end in
    let handled := except tried (fun e => logger (InsertError e)) in
    finally handled
      match conn with
      | Some c => close c
      | None => raise (UnboundLocalError "conn")
      end.

(** ** Reading the input *)

(** What the two readers make of a path: the text of the file
    ([file.read()], or the joined cells of [pd.read_csv]), or an exception. *)
Record filesystem := {
  read_csv : pystr -> outcome pystr;
  read_txt : pystr -> outcome pystr;
}.

(** [p.rfind(c)]: the last index of [c] in [p], or -1. *)
Fixpoint rfind_from (i : Z) (c : Z) (p : pystr) : Z :=
  match p with
  | [] => -1
  | x :: rest =>
      let later := rfind_from (i + 1) c rest in
      if 0 <=? later then later else if x =? c then i else -1
  end.

Definition rfind (c : Z) (p : pystr) : Z := rfind_from 0 c p.

(** [p[i:j]] for indices within the string. *)
Definition slice (p : pystr) (i j : Z) : pystr :=
  take (Z.to_nat (j - i)) (drop (Z.to_nat i) p).

(** [os.path.splitext] (POSIX): the extension starts at the last dot of the
    last path component, leading dots of the component apart. *)
Definition splitext (p : pystr) : pystr * pystr :=
  let sepIndex := rfind (ord "/") p in
  let dotIndex := rfind (ord ".") p in
  if (sepIndex <? dotIndex)
     && existsb (fun x => negb (x =? ord ".")) (slice p (sepIndex + 1) dotIndex)
  then (take (Z.to_nat dotIndex) p, drop (Z.to_nat dotIndex) p)
  else (p, []).

Section Pipeline.

Context (U : unicode_db) (fs : filesystem).

Definition file_ext_of (file_path : pystr) : pystr :=
  lower U (splitext file_path).2.

Definition is_csv (file_ext : pystr) : bool := bool_decide (file_ext = py ".csv").
Definition is_txt (file_ext : pystr) : bool := bool_decide (file_ext = py ".txt").

Definition extract_text (file_path : pystr) : M pystr :=
  fun w =>
    let file_ext := file_ext_of file_path in
    (* the try block yields the value of [text] it leaves behind *)
    let tried : outcome pystr * world :=
      if is_csv file_ext then (read_csv fs file_path, w)
      else if is_txt file_ext then (read_txt fs file_path, w)
      else (do _ <- logger (UnsupportedFormat file_ext); ret []) w in
    except tried (fun e => do _ <- logger (FileError file_path e); ret []).

(** The body of the loop of [process_file]. *)
Definition process_word (word : pystr) : M unit :=
  let simple_value := calculate_gematria U word in
  let hebrew_value := calculate_hebrew_gematria U word in
  let english_value := calculate_english_gematria U word in
  do _ <- insert_word word simple_value hebrew_value english_value;
  logger (Processed word simple_value hebrew_value english_value).

Fixpoint for_each (words : list pystr) (body : pystr -> M unit) : M unit :=
  match words with
  | [] => ret tt
  | word :: rest => do _ <- body word; for_each rest body
  end.

(** The order in which a Python set is iterated is not specified; the
    model takes the order of [elements], and the properties below use
    nothing of it but that every word comes exactly once. *)
Definition process_file (file_path : pystr) : M unit :=
  do text <- extract_text file_path;
  let words := words_of U text in
  for_each (elements words) process_word.

(** [main], given the parsed argument [args.file]. *)
Definition main (file : pystr) : M unit :=
  do _ <- create_database;
  process_file file.

End Pipeline.

(** The storage meets no failure from here on. *)
Definition healthy (w : world) : Prop := Forall (eq NoFault) (faults w).

(** The rows of a table stored under a key. *)
Definition rows_of (word : pystr) (t : list row) : list row :=
  List.filter (fun r => bool_decide (row_word r = word)) t.

(** The primary key: no two rows share their word. *)
Definition primary_key (t : list row) : Prop := NoDup (map row_word t).

(** The row [process_file] hands to [insert_word] for a word, and the
    record it logs afterwards. *)
Definition scored_row (U : unicode_db) (word : pystr) : row :=
  {| row_word := word;
     simple_gematria := calculate_gematria U word;
     hebrew_gematria := calculate_hebrew_gematria U word;
     english_gematria := calculate_english_gematria U word |}.

Definition processed (U : unicode_db) (word : pystr) : log_record :=
  Processed word (calculate_gematria U word)
            (calculate_hebrew_gematria U word)
            (calculate_english_gematria U word).

(** A file system for the examples: every [.txt] file holds the given
    text, and [pd.read_csv] finds no file. *)
Definition fs_with (text : pystr) : filesystem :=
  {| read_csv := fun _ => Raised (OSError "No such file or directory");
     read_txt := fun _ => Returned text |}.

Definition fresh (schedule : list fault) : world :=
  {| table := Some []; report := []; faults := schedule |}.

(** The table once [insert_word] has been called for the words, in turn,
    on sound storage: a row that cannot be bound is not stored. *)
Definition storable (U : unicode_db) (word : pystr) : bool :=
  match bind_parameters (scored_row U word) with
  | None => true
  | Some _ => false
  end.

Definition store_word (U : unicode_db) (t : list row) (word : pystr)
  : list row :=
  if storable U word then insert_or_ignore (scored_row U word) t else t.

Definition store_all (U : unicode_db) (t : list row) (words : list pystr)
  : list row :=
  foldl (store_word U) t words.

(** The failure the storage holds for the next connection. *)
Definition next_fault (w : world) : fault :=
  match faults w with [] => NoFault | f :: _ => f end.

(** No coming connection is refused (statements and commits may fail). *)
Definition connects (w : world) : Prop :=
  Forall (fun f => f <> ConnectFails) (faults w).

(** The world with the next connection used up. *)
Definition after_connection (t : option (list row)) (l : list log_record)
           (w : world) : world :=
  {| table := t; report := l; faults := tail (faults w) |}.

Definition is_info (r : log_record) : bool :=
  match level_of r with INFO => true | _ => false end.

(** The character next to a token, if there is one, is white space. *)
Definition edge_or_space (o : option Z) : bool :=
  match o with None => true | Some c => isspace c end.

(** The row [insert_word] builds from its arguments. *)
Definition row_of (word : pystr) (s h e : Z) : row :=
  {| row_word := word; simple_gematria := s;
     hebrew_gematria := h; english_gematria := e |}.

(** The error sqlite3 raises for a failure of the storage, by its kind. *)
Definition cannot_open : exn := OperationalError "unable to open database file".
Definition io_error : exn := OperationalError "disk I/O error".
Definition no_table : exn := OperationalError "no such table: words".

(** What the loop logs for a word while there is no table. *)
Definition rejected (U : unicode_db) (word : pystr) : list log_record :=
  [InsertError no_table; processed U word].

(** The world with more records in its log. *)
Definition with_report (w : world) (recs : list log_record) : world :=
  {| table := table w; report := report w ++ recs; faults := faults w |}.

(** The table [main] starts to fill: the one that exists, or an empty one. *)
Definition table_or_empty (w : world) : list row := default [] (table w).

(** The words of a list that have no row in a table and whose row can
    be bound. *)
Definition new_words (U : unicode_db) (t : list row) (words : list pystr)
  : list pystr :=
  List.filter (fun x => negb (has_word t x) && storable U x) words.

(** A word of ASCII characters with everything but its letters dropped
    and the letters lowercased. *)
Definition letters_of (word : pystr) : pystr :=
  map lowercase_codepoint (List.filter ascii_letter word).

(** Two words differ in letter case at most: they have the same length
    and, place by place, characters with the same lowercase mapping. *)
Fixpoint same_up_to_case (U : unicode_db) (t1 t2 : pystr) : bool :=
  match t1, t2 with
  | [], [] => true
  | a :: t1, b :: t2 =>
      bool_decide (tolower_full U a = tolower_full U b)
      && same_up_to_case U t1 t2
  | _, _ => false
  end.

(** ** Sums *)

Lemma foldl_add_shift (l : list Z) (a : Z) :
  foldl Z.add a l = a + foldl Z.add 0 l.
Proof.
  revert a. induction l as [|x l IH]; intros a; simpl; [lia|].
  rewrite (IH (a + x)), (IH (0 + x)). lia.
Qed.

Lemma sum_nil : sum [] = 0.
Proof. reflexivity. Qed.

Lemma sum_cons (x : Z) (l : list Z) : sum (x :: l) = x + sum l.
Proof. unfold sum. simpl. rewrite foldl_add_shift. lia. Qed.

Lemma sum_app (l k : list Z) : sum (l ++ k) = sum l + sum k.
Proof.
  induction l as [|x l IH]; simpl; [rewrite sum_nil; lia|].
  rewrite !sum_cons, IH. lia.
Qed.

(** ** Lower-casing *)

Lemma in_range_spec (lo hi c : Z) :
  in_range lo hi c = true <-> lo <= c <= hi.
Proof. unfold in_range. rewrite andb_true_iff, !Z.leb_le. tauto. Qed.

Lemma is_ascii_not_sigma (c : Z) :
  is_ascii c = true -> (c =? CAPITAL_SIGMA) = false.
Proof.
  intros H%in_range_spec. apply Z.eqb_neq. unfold CAPITAL_SIGMA. lia.
Qed.

Lemma do_lower_ascii (U : unicode_db) (before s : pystr) :
  forallb is_ascii s = true ->
  do_lower U before s = map lowercase_codepoint s.
Proof.
  revert before. induction s as [|c s IH]; intros before H; simpl in *; [done|].
  apply andb_true_iff in H as [Hc Hs].
  unfold lower_ucs4, tolower_full.
  rewrite (is_ascii_not_sigma c Hc), Hc. simpl. by rewrite IH.
Qed.

Lemma lower_ascii (U : unicode_db) (s : pystr) :
  forallb is_ascii s = true -> lower U s = map lowercase_codepoint s.
Proof. apply do_lower_ascii. Qed.

Lemma lowercase_codepoint_ascii (c : Z) :
  is_ascii c = true -> is_ascii (lowercase_codepoint c) = true.
Proof.
  unfold lowercase_codepoint, ascii_upper, is_ascii.
  intros H%in_range_spec. destruct (in_range 65 90 c) eqn:E.
  - apply in_range_spec in E. apply in_range_spec. lia.
  - apply in_range_spec. lia.
Qed.

Lemma ascii_letter_lowercase (c : Z) :
  ascii_letter (lowercase_codepoint c) = ascii_letter c.
Proof.
  unfold ascii_letter, lowercase_codepoint, ascii_upper, ascii_lower, in_range.
  destruct (65 <=? c) eqn:E1, (c <=? 90) eqn:E2; simpl;
    repeat match goal with
           | |- context [?a <=? ?b] => destruct (Z.leb_spec a b)
           end; simpl; try reflexivity; try lia;
    try (apply Z.leb_le in E1); try (apply Z.leb_le in E2);
    try (apply Z.leb_gt in E1); try (apply Z.leb_gt in E2); lia.
Qed.

(** ** The simple score on ASCII text *)

Lemma calculate_gematria_ascii (U : unicode_db) (word : pystr) :
  forallb is_ascii word = true ->
  calculate_gematria U word = simpleScore word.
Proof.
  intros H. unfold calculate_gematria, simpleScore.
  rewrite (lower_ascii U word H).
  induction word as [|c w IH]; [reflexivity|].
  simpl in H. apply andb_true_iff in H as [Hc Hw].
  simpl. unfold isalpha at 1.
  rewrite (lowercase_codepoint_ascii c Hc), ascii_letter_lowercase.
  destruct (ascii_letter c); simpl; rewrite !sum_cons, ?IH by done.
  - change (ord "a") with 97. lia.
  - rewrite <- IH by done. lia.
Qed.

(** ** Table-based scores *)

Lemma contains_false_subscript (d : gmap Z Z) (c : Z) :
  contains d c = false -> subscript d c = 0.
Proof.
  unfold contains, subscript. intros H%bool_decide_eq_false.
  destruct (d !! c) eqn:E; [|done]. exfalso. apply H. by eexists.
Qed.

Lemma table_score_all (d : gmap Z Z) (s : pystr) :
  table_score d s = sum (map (subscript d) s).
Proof.
  unfold table_score. induction s as [|c s IH]; [done|]. simpl.
  destruct (contains d c) eqn:E; simpl; rewrite !sum_cons, IH; [done|].
  rewrite (contains_false_subscript d c E). lia.
Qed.

Lemma table_score_app (d : gmap Z Z) (s t : pystr) :
  table_score d (s ++ t) = table_score d s + table_score d t.
Proof. by rewrite !table_score_all, map_app, sum_app. Qed.

Lemma table_score_lower_ucs4 (U : unicode_db) (d : gmap Z Z)
      (before after : pystr) (c : Z) :
  subscript d FINAL_SIGMA = 0 -> subscript d SMALL_SIGMA = 0 ->
  table_score d (lower_ucs4 U before c after) = letter_value U d c.
Proof.
  intros Hf Hs. unfold lower_ucs4, letter_value.
  destruct (c =? CAPITAL_SIGMA); [|done].
  rewrite table_score_all. unfold handle_capital_sigma.
  match goal with |- context [if ?b then _ else _] => destruct b end;
    simpl; rewrite sum_cons, sum_nil; lia.
Qed.

Lemma table_score_do_lower (U : unicode_db) (d : gmap Z Z) (before s : pystr) :
  subscript d FINAL_SIGMA = 0 -> subscript d SMALL_SIGMA = 0 ->
  table_score d (do_lower U before s) = sum (map (letter_value U d) s).
Proof.
  intros Hf Hs. revert before.
  induction s as [|c s IH]; intros before; [done|]. simpl.
  by rewrite table_score_app, table_score_lower_ucs4, sum_cons, IH.
Qed.

Lemma hebrew_gematria_letterwise (U : unicode_db) (word : pystr) :
  calculate_hebrew_gematria U word
  = sum (map (letter_value U hebrew_values) word).
Proof. by apply (table_score_do_lower U hebrew_values []). Qed.

Lemma english_gematria_letterwise (U : unicode_db) (word : pystr) :
  calculate_english_gematria U word
  = sum (map (letter_value U english_values) word).
Proof. by apply (table_score_do_lower U english_values []). Qed.

(** The two table-based scorers are additive over concatenation, for every
    string and whatever the Unicode database says. *)
Lemma hebrew_gematria_app (U : unicode_db) (u v : pystr) :
  calculate_hebrew_gematria U (u ++ v)
  = calculate_hebrew_gematria U u + calculate_hebrew_gematria U v.
Proof. by rewrite !hebrew_gematria_letterwise, map_app, sum_app. Qed.

Lemma english_gematria_app (U : unicode_db) (u v : pystr) :
  calculate_english_gematria U (u ++ v)
  = calculate_english_gematria U u + calculate_english_gematria U v.
Proof. by rewrite !english_gematria_letterwise, map_app, sum_app. Qed.

(** So is the simple scorer on ASCII text. *)
Lemma simpleScore_app (u v : pystr) :
  simpleScore (u ++ v) = simpleScore u + simpleScore v.
Proof. unfold simpleScore. by rewrite map_app, sum_app. Qed.

Lemma calculate_gematria_app_ascii (U : unicode_db) (u v : pystr) :
  forallb is_ascii u = true -> forallb is_ascii v = true ->
  calculate_gematria U (u ++ v)
  = calculate_gematria U u + calculate_gematria U v.
Proof.
  intros Hu Hv. rewrite !calculate_gematria_ascii, ?simpleScore_app; try done.
  rewrite forallb_app. by rewrite Hu, Hv.
Qed.

(** ** The letters a to z *)

Definition a_to_z : list Z := seqZ 97 26.

Lemma ascii_lower_a_to_z (c : Z) : ascii_lower c = true <-> c ∈ a_to_z.
Proof.
  unfold ascii_lower, a_to_z. rewrite in_range_spec, elem_of_seqZ. lia.
Qed.

Lemma hebrew_values_a_to_z (c : Z) :
  ascii_lower c = true -> contains hebrew_values c = true.
Proof.
  intros H%ascii_lower_a_to_z.
  assert (E : forallb (contains hebrew_values) a_to_z = true)
    by (vm_compute; reflexivity).
  rewrite forallb_forall in E. apply E. by apply list_elem_of_In.
Qed.

Lemma english_values_a_to_z (c : Z) :
  ascii_lower c = true -> english_values !! c = Some (6 * (c - 96)).
Proof.
  intros H%ascii_lower_a_to_z.
  assert (E : forallb (fun c => bool_decide
                (english_values !! c = Some (6 * (c - 96)))) a_to_z = true)
    by (vm_compute; reflexivity).
  rewrite forallb_forall in E. apply list_elem_of_In, E in H.
  by apply bool_decide_eq_true in H.
Qed.

Lemma lower_a_to_z (U : unicode_db) (word : pystr) :
  forallb ascii_lower word = true -> lower U word = word.
Proof.
  intros H. rewrite lower_ascii.
  - induction word as [|c w IH]; [done|]. simpl in *.
    apply andb_true_iff in H as [Hc Hw]. rewrite IH by done. f_equal.
    unfold lowercase_codepoint, ascii_upper.
    apply in_range_spec in Hc.
    destruct (in_range 65 90 c) eqn:E; [|done].
    apply in_range_spec in E. lia.
  - rewrite forallb_forall in *. intros c Hc. specialize (H c Hc).
    apply in_range_spec in H. apply in_range_spec. lia.
Qed.

Lemma ascii_letter_is_ascii (c : Z) : ascii_letter c = true -> is_ascii c = true.
Proof.
  unfold ascii_letter, ascii_upper, ascii_lower, is_ascii.
  intros [H|H]%orb_true_iff; apply in_range_spec in H; apply in_range_spec; lia.
Qed.

Lemma lowercase_of_letter (c : Z) :
  ascii_letter c = true -> ascii_lower (lowercase_codepoint c) = true.
Proof.
  unfold ascii_letter, lowercase_codepoint, ascii_upper, ascii_lower.
  destruct (in_range 65 90 c) eqn:E; simpl; [|done].
  intros _. apply in_range_spec in E. apply in_range_spec. lia.
Qed.

(** ** The scorers *)

(** C1 (simple score).  The claim: for every string, [calculate_gematria]
    adds, for each ASCII letter, its lowercase code point minus the code
    point of 'a' plus 1, and nothing for any other character.  The examples
    hold: "abc" scores 6 and "z" scores 26.  But the one-letter word "é"
    (U+00E9), which [isalpha] accepts, scores 233 - 96 = 137 in the code,
    where the claimed sum is 0. *)
Theorem calculate_gematria_counts_e_acute :
  calculate_gematria ucd_excerpt (py "abc") = 6
  /\ calculate_gematria ucd_excerpt (py "z") = 26
  /\ calculate_gematria ucd_excerpt [233] = 137
  /\ simpleScore [233] = 0.
Proof. split_and!; vm_compute; reflexivity. Qed.

(** C2 (Hebrew score).  [calculate_hebrew_gematria] is the sum of the
    Hebrew table over the characters of the lowercased word, a character
    that is not a key of the table adding 0; every letter a..z is a key, so
    that of a word written in a..z no character is filtered out; and "a",
    "j", "w" score 1, 600, 900. *)
Theorem hebrew_gematria_sums_table (U : unicode_db) (word : pystr) :
  calculate_hebrew_gematria U word
  = sum (map (subscript hebrew_values) (lower U word))
  /\ (forall c, contains hebrew_values c = false -> subscript hebrew_values c = 0)
  /\ (forall c, ascii_lower c = true -> contains hebrew_values c = true)
  /\ (forallb ascii_lower word = true ->
      List.filter (contains hebrew_values) (lower U word) = word)
  /\ calculate_hebrew_gematria U (py "a") = 1
  /\ calculate_hebrew_gematria U (py "j") = 600
  /\ calculate_hebrew_gematria U (py "w") = 900.
Proof.
  split; [apply table_score_all|].
  split; [apply contains_false_subscript|].
  split; [apply hebrew_values_a_to_z|].
  split; [|split_and!; vm_compute; reflexivity].
  intros H. rewrite (lower_a_to_z U word H).
  induction word as [|c w IH]; [done|].
  cbn [forallb] in H. apply andb_true_iff in H as [Hc Hw].
  cbn [List.filter]. by rewrite (hebrew_values_a_to_z c Hc), IH.
Qed.

Lemma hebrew_gematria_sums_table_witness :
  forallb ascii_lower (py "jaw") = true
  /\ List.filter (contains hebrew_values) (lower ucd_excerpt (py "jaw"))
     = py "jaw"
  /\ contains hebrew_values (ord "n") = true.
Proof.
  destruct (hebrew_gematria_sums_table ucd_excerpt (py "jaw"))
    as (_ & _ & Hkey & Hkeep & _).
  split; [reflexivity|]. split; [apply Hkeep; reflexivity|].
  apply Hkey. reflexivity.
Defined.

(** C6 (English score).  "a" scores 6 and "z" scores 156, and for every
    single Latin letter, capital or small, the English score is six times
    the simple score. *)
Theorem english_gematria_six_times_simple (U : unicode_db) :
  calculate_english_gematria U (py "a") = 6
  /\ calculate_english_gematria U (py "z") = 156
  /\ forall c, ascii_letter c = true ->
       calculate_english_gematria U [c] = 6 * calculate_gematria U [c].
Proof.
  split; [vm_compute; reflexivity|]. split; [vm_compute; reflexivity|].
  intros c Hc.
  pose proof (ascii_letter_is_ascii c Hc) as Ha.
  pose proof (lowercase_of_letter c Hc) as Hl.
  unfold calculate_english_gematria, calculate_gematria.
  rewrite lower_ascii by (cbn [forallb]; by rewrite Ha).
  cbn [map List.filter].
  set (c' := lowercase_codepoint c) in *.
  pose proof (english_values_a_to_z c' Hl) as He.
  assert (contains english_values c' = true) as ->
    by (unfold contains; apply bool_decide_eq_true; rewrite He; by eexists).
  assert (isalpha U c' = true) as ->.
  { unfold isalpha, ascii_letter.
    by rewrite (lowercase_codepoint_ascii c Ha : is_ascii c' = true), Hl, orb_true_r. }
  cbn [map]. unfold subscript. rewrite He. cbn [default].
  rewrite !sum_cons, !sum_nil. unfold id. lia.
Qed.

Lemma english_gematria_six_times_simple_witness :
  ascii_letter (ord "Q") = true
  /\ calculate_english_gematria ucd_excerpt [ord "Q"]
     = 6 * calculate_gematria ucd_excerpt [ord "Q"].
Proof.
  split; [reflexivity|].
  apply (english_gematria_six_times_simple ucd_excerpt). reflexivity.
Defined.

(** C10 (additivity).  The claim: each of the three scorers maps the empty
    string to 0 and a concatenation to the sum of the scores.  The Hebrew
    and the English scorer do ([hebrew_gematria_app],
    [english_gematria_app]).  The simple scorer does not: a capital sigma
    lowers to the final sigma U+03C2 behind "a" and to U+03C3 on its own,
    both count as letters, and "a" ++ "Σ" scores 867 where "a" and "Σ"
    score 1 + 867. *)
Theorem calculate_gematria_sigma_not_additive :
  calculate_gematria ucd_excerpt [] = 0
  /\ calculate_gematria ucd_excerpt (py "a" ++ [CAPITAL_SIGMA]) = 867
  /\ calculate_gematria ucd_excerpt (py "a")
     + calculate_gematria ucd_excerpt [CAPITAL_SIGMA] = 868.
Proof. split_and!; vm_compute; reflexivity. Qed.

(** ** Tokens *)

Lemma split_from_space (cur u v : pystr) (s : Z) :
  isspace s = true ->
  split_from cur (u ++ s :: v) = split_from cur u ++ split v.
Proof.
  intros Hs. revert cur. induction u as [|c u IH]; intros cur.
  - cbn [app split_from]. rewrite Hs. by destruct cur.
  - cbn [app split_from]. destruct (isspace c); [|apply IH].
    destruct cur; rewrite IH; reflexivity.
Qed.

Lemma split_from_token (cur t : pystr) :
  Forall not_space t -> rev cur ++ t <> [] ->
  split_from cur t = [rev cur ++ t].
Proof.
  revert cur. induction t as [|c t IH]; intros cur Ht Hne.
  - cbn [split_from]. rewrite app_nil_r in *.
    destruct cur; [done|reflexivity].
  - apply Forall_cons in Ht as [Hc Ht]. cbn [split_from]. rewrite Hc.
    rewrite IH; [|done|]; cbn [rev]; rewrite <- app_assoc; [done|].
    by destruct (rev cur).
Qed.

Lemma split_from_tokens (cur text token : pystr) :
  Forall not_space cur -> token ∈ split_from cur text ->
  token <> [] /\ Forall not_space token.
Proof.
  revert cur. induction text as [|c text IH]; intros cur Hcur.
  - cbn [split_from]. destruct cur as [|x cur]; [by intros ?%elem_of_nil|].
    intros ->%list_elem_of_singleton. split.
    + cbn [rev]. by destruct (rev cur).
    + by apply Forall_rev.
  - cbn [split_from]. destruct (isspace c) eqn:Hc.
    + destruct cur as [|x cur]; [by apply IH|].
      intros [->|H]%elem_of_cons; [|by apply (IH [])].
      split; [cbn [rev]; by destruct (rev cur)|by apply Forall_rev].
    + apply IH. by constructor.
Qed.

Lemma elem_of_words_of (U : unicode_db) (text word : pystr) :
  word ∈ words_of U text <-> word ∈ split text /\ str_isalpha U word = true.
Proof.
  unfold words_of. rewrite elem_of_list_to_set, list_elem_of_In, filter_In.
  by rewrite <- list_elem_of_In.
Qed.

(** C5 (tokens).  The words of a text are exactly the tokens of
    [text.split()] that [isalpha] accepts, each once (a set); the tokens are
    the maximal runs free of white space: a token on its own is returned
    whole, white space separates, and no token is empty or holds white
    space.  "Cat cat DOG 123 dog!" yields the set of "Cat", "cat" and
    "DOG": "123" and "dog!" are dropped whole, and "dog" is not a word. *)
Theorem words_of_alphabetic_tokens (U : unicode_db) (text : pystr) :
  (forall word, word ∈ words_of U text
                <-> word ∈ split text /\ str_isalpha U word = true)
  /\ NoDup (elements (words_of U text))
  /\ (forall token, token ∈ split text ->
        token <> [] /\ Forall not_space token)
  /\ (forall token, token <> [] -> Forall not_space token ->
        split token = [token])
  /\ (forall u v s, isspace s = true ->
        split (u ++ s :: v) = split u ++ split v)
  /\ split (py "Cat cat DOG 123 dog!")
     = [py "Cat"; py "cat"; py "DOG"; py "123"; py "dog!"]
  /\ words_of U (py "Cat cat DOG 123 dog!")
     = {[ py "Cat"; py "cat"; py "DOG" ]}
  /\ py "dog" ∉ words_of U (py "Cat cat DOG 123 dog!").
Proof.
  split_and!.
  - apply elem_of_words_of.
  - apply NoDup_elements.
  - intros token. by apply split_from_tokens.
  - intros token Hne Ht. by apply (split_from_token []).
  - intros u v s Hs. by apply split_from_space.
  - vm_compute. reflexivity.
  - vm_compute. reflexivity.
  - rewrite elem_of_words_of. intros [H _].
    apply list_elem_of_In in H. vm_compute in H.
    repeat (destruct H as [H|H]; [discriminate|]). done.
Qed.

Lemma words_of_alphabetic_tokens_witness :
  py "DOG" ∈ words_of ucd_excerpt (py "Cat cat DOG 123 dog!")
  /\ split (py "DOG") = [py "DOG"]
  /\ split (py "Cat" ++ 32 :: py "cat") = split (py "Cat") ++ split (py "cat").
Proof.
  destruct (words_of_alphabetic_tokens ucd_excerpt (py "Cat cat DOG 123 dog!"))
    as (Hin & _ & _ & Hone & Hsep & _).
  split_and!.
  - apply Hin. split; [|reflexivity].
    apply list_elem_of_In. vm_compute. tauto.
  - apply Hone; [discriminate|]. repeat constructor.
  - apply Hsep. reflexivity.
Defined.

(** ** The table *)

Lemma has_word_spec (t : list row) (word : pystr) :
  has_word t word = true <-> word ∈ map row_word t.
Proof.
  unfold has_word. rewrite existsb_exists, list_elem_of_fmap. split.
  - intros (r & Hr & E). apply bool_decide_eq_true in E.
    exists r. by rewrite list_elem_of_In.
  - intros (r & E & Hr). exists r. rewrite <- list_elem_of_In.
    split; [done|]. by apply bool_decide_eq_true.
Qed.

Lemma has_word_false (t : list row) (word : pystr) :
  has_word t word = false <-> word ∉ map row_word t.
Proof. rewrite <- has_word_spec. by destruct (has_word t word). Qed.

Lemma rows_of_app (word : pystr) (t u : list row) :
  rows_of word (t ++ u) = rows_of word t ++ rows_of word u.
Proof. apply List.filter_app. Qed.

Lemma rows_of_absent (word : pystr) (t : list row) :
  has_word t word = false -> rows_of word t = [].
Proof.
  unfold has_word, rows_of. induction t as [|r t IH]; [done|].
  cbn [existsb List.filter]. intros [Hr Ht]%orb_false_iff.
  rewrite Hr. by apply IH.
Qed.


Lemma insert_or_ignore_present (r : row) (t : list row) :
  has_word t (row_word r) = true -> insert_or_ignore r t = t.
Proof. unfold insert_or_ignore. by intros ->. Qed.

Lemma insert_or_ignore_absent (r : row) (t : list row) :
  has_word t (row_word r) = false -> insert_or_ignore r t = t ++ [r].
Proof. unfold insert_or_ignore. by intros ->. Qed.

Lemma has_word_insert (r : row) (t : list row) (word : pystr) :
  has_word (insert_or_ignore r t) word
  = has_word t word || bool_decide (row_word r = word).
Proof.
  unfold insert_or_ignore. destruct (has_word t (row_word r)) eqn:E.
  - destruct (bool_decide (row_word r = word)) eqn:Ew; [|by rewrite orb_false_r].
    apply bool_decide_eq_true in Ew. subst word. by rewrite E.
  - unfold has_word. rewrite existsb_app. cbn [existsb]. by rewrite orb_false_r.
Qed.

Lemma primary_key_insert (r : row) (t : list row) :
  primary_key t -> primary_key (insert_or_ignore r t).
Proof.
  unfold insert_or_ignore, primary_key.
  destruct (has_word t (row_word r)) eqn:E; [done|]. intros H.
  rewrite map_app. apply NoDup_app. split_and!; [done| |apply NoDup_singleton].
  intros word Hw ->%list_elem_of_singleton.
  apply has_word_false in E. by apply E.
Qed.

Lemma rows_of_insert_same (r : row) (t : list row) :
  has_word t (row_word r) = false ->
  rows_of (row_word r) (insert_or_ignore r t) = [r].
Proof.
  intros H. rewrite (insert_or_ignore_absent r t H), rows_of_app.
  rewrite (rows_of_absent _ t H). unfold rows_of. cbn [List.filter app].
  by rewrite bool_decide_eq_true_2.
Qed.

Lemma rows_of_insert_other (r : row) (t : list row) (word : pystr) :
  row_word r <> word -> rows_of word (insert_or_ignore r t) = rows_of word t.
Proof.
  intros H. unfold insert_or_ignore.
  destruct (has_word t (row_word r)); [done|].
  rewrite rows_of_app. unfold rows_of at 2. cbn [List.filter].
  rewrite bool_decide_eq_false_2 by done. apply app_nil_r.
Qed.

(** The rows kept under a key that was already taken. *)
Lemma rows_of_insert_taken (r : row) (t : list row) (word : pystr) :
  has_word t word = true -> rows_of word (insert_or_ignore r t) = rows_of word t.
Proof.
  intros H. destruct (decide (row_word r = word)) as [<-|Hne].
  - by rewrite insert_or_ignore_present.
  - by apply rows_of_insert_other.
Qed.

(** ** Connections *)

Lemma healthy_tail (w : world) (t : option (list row)) (l : list log_record) :
  healthy w ->
  healthy {| table := t; report := l; faults := tail (faults w) |}.
Proof.
  unfold healthy. cbn [faults]. destruct (faults w) as [|f fs]; [done|].
  by intros [_ H]%Forall_cons.
Qed.

Lemma connect_healthy (w : world) :
  healthy w ->
  sqlite3_connect w
  = (Returned {| conn_fault := NoFault; pending := None |},
     {| table := table w; report := report w; faults := tail (faults w) |}).
Proof.
  unfold healthy, sqlite3_connect. destruct (faults w) as [|f fs]; [done|].
  by intros [<- _]%Forall_cons.
Qed.

(** With the table in place and the storage sound, [insert_word] returns,
    having run INSERT OR IGNORE on the table and logged nothing. *)
Lemma insert_word_healthy (w : world) (t : list row)
      (word : pystr) (s h e : Z) :
  healthy w -> table w = Some t ->
  bind_parameters (row_of word s h e) = None ->
  insert_word word s h e w
  = (Returned tt,
     {| table := Some (insert_or_ignore
                         {| row_word := word; simple_gematria := s;
                            hebrew_gematria := h; english_gematria := e |} t);
        report := report w; faults := tail (faults w) |}).
Proof.
  intros Hw Ht Hb. unfold insert_word. rewrite (connect_healthy w Hw).
  unfold bind, execute_insert, commit, except, finally, close, ret.
  cbn. rewrite Ht. unfold row_of in Hb. by rewrite Hb.
Qed.

(** A row that cannot be bound is reported and not stored. *)
Lemma insert_word_unbound (w : world) (t : list row)
      (word : pystr) (s h e : Z) (ex : exn) :
  healthy w -> table w = Some t ->
  bind_parameters (row_of word s h e) = Some ex ->
  insert_word word s h e w
  = (Returned tt,
     {| table := Some t; report := report w ++ [InsertError ex];
        faults := tail (faults w) |}).
Proof.
  intros Hw Ht Hb. unfold insert_word. rewrite (connect_healthy w Hw).
  unfold bind, execute_insert, commit, except, finally, close, ret.
  cbn. rewrite Ht. unfold row_of in Hb. by rewrite Hb.
Qed.

(** ** The store *)




(** C9 (schema).  [create_database] never touches the rows of a table that
    exists, whatever the storage does; with the storage sound it returns,
    creating the empty table when there was none and leaving an existing
    one as it is. *)
Theorem create_database_keeps_rows (w : world) :
  (forall t, table w = Some t -> table (create_database w).2 = Some t)
  /\ (healthy w ->
      create_database w
      = (Returned tt,
         {| table := Some (default [] (table w)); report := report w;
            faults := tail (faults w) |})).
Proof.
  split.
  - intros t Ht. unfold create_database, sqlite3_connect.
    destruct (faults w) as [|[] fs]; cbn; by rewrite ?Ht.
  - intros Hw. unfold create_database. rewrite (connect_healthy w Hw).
    cbn. by destruct (table w).
Qed.

Lemma create_database_keeps_rows_witness :
  table (create_database
           {| table := Some [scored_row ucd_excerpt (py "cat")];
              report := []; faults := [ExecuteFails] |}).2
  = Some [scored_row ucd_excerpt (py "cat")]
  /\ create_database {| table := None; report := []; faults := [] |}
     = (Returned tt, fresh []).
Proof.
  split.
  - by apply (create_database_keeps_rows
                {| table := Some [scored_row ucd_excerpt (py "cat")];
                   report := []; faults := [ExecuteFails] |}).
  - apply (create_database_keeps_rows
             {| table := None; report := []; faults := [] |}).
    constructor.
Defined.

(** ** The pipeline *)

Lemma world_eta (w : world) :
  {| table := table w; report := report w; faults := faults w |} = w.
Proof. by destruct w. Qed.

(** [extract_text] always returns, and touches nothing but the log. *)
Lemma extract_text_frame (U : unicode_db) (fs : filesystem)
      (file_path : pystr) (w : world) :
  exists (text : pystr) (recs : list log_record),
    extract_text U fs file_path w
    = (Returned text,
       {| table := table w; report := report w ++ recs; faults := faults w |}).
Proof.
  unfold extract_text.
  destruct (is_csv _); [|destruct (is_txt _)].
  - destruct (read_csv fs file_path) as [text|e].
    + exists text, []. by rewrite app_nil_r, world_eta.
    + by exists [], [FileError file_path e].
  - destruct (read_txt fs file_path) as [text|e].
    + exists text, []. by rewrite app_nil_r, world_eta.
    + by exists [], [FileError file_path e].
  - by exists [], [UnsupportedFormat (file_ext_of U file_path)].
Qed.

Lemma store_all_cons (U : unicode_db) (t : list row) (x : pystr) (ws : list pystr) :
  store_all U t (x :: ws) = store_all U (store_word U t x) ws.
Proof. reflexivity. Qed.

Lemma process_word_healthy (U : unicode_db) (word : pystr)
      (w : world) (t : list row) :
  healthy w -> table w = Some t ->
  exists recs,
    process_word U word w
    = (Returned tt,
       {| table := Some (store_word U t word);
          report := report w ++ recs;
          faults := tail (faults w) |}).
Proof.
  intros Hw Ht. unfold process_word, bind, store_word, storable.
  destruct (bind_parameters (scored_row U word)) as [ex|] eqn:Hb.
  - exists [InsertError ex; processed U word].
    rewrite (insert_word_unbound w t _ _ _ _ ex Hw Ht Hb).
    unfold logger. cbn. by rewrite <- app_assoc.
  - exists [processed U word].
    by rewrite (insert_word_healthy w t _ _ _ _ Hw Ht Hb).
Qed.

Lemma for_each_process_word (U : unicode_db) (words : list pystr)
      (w : world) (t : list row) :
  healthy w -> table w = Some t ->
  exists w',
    for_each words (process_word U) w = (Returned tt, w')
    /\ healthy w'
    /\ table w' = Some (store_all U t words)
    /\ exists recs, report w' = report w ++ recs.
Proof.
  revert w t. induction words as [|word words IH]; intros w t Hw Ht.
  - exists w. split_and!; [done..|]. exists []. by rewrite app_nil_r.
  - cbn [for_each]. unfold bind at 1.
    destruct (process_word_healthy U word w t Hw Ht) as [recs1 ->].
    destruct (IH {| table := Some (store_word U t word);
                    report := report w ++ recs1;
                    faults := tail (faults w) |}
                 (store_word U t word)
                 (healthy_tail _ _ _ Hw) eq_refl)
      as (w' & E & Hw' & Ht' & recs & Hr').
    exists w'. split_and!; [apply E|done|done|].
    exists (recs1 ++ recs). rewrite Hr'. cbn [report]. by rewrite <- app_assoc.
Qed.

Lemma store_word_primary_key (U : unicode_db) (t : list row) (x : pystr) :
  primary_key t -> primary_key (store_word U t x).
Proof.
  unfold store_word. destruct (storable U x); [|done]. apply primary_key_insert.
Qed.

Lemma has_word_store_word (U : unicode_db) (t : list row) (x word : pystr) :
  has_word (store_word U t x) word
  = has_word t word || (storable U x && bool_decide (x = word)).
Proof.
  unfold store_word. destruct (storable U x); cbn [andb].
  - by rewrite has_word_insert.
  - by rewrite orb_false_r.
Qed.

Lemma rows_of_store_word_taken (U : unicode_db) (t : list row) (x word : pystr) :
  has_word t word = true -> rows_of word (store_word U t x) = rows_of word t.
Proof.
  unfold store_word. destruct (storable U x); [|done]. apply rows_of_insert_taken.
Qed.

Lemma store_all_primary_key (U : unicode_db) (t : list row) (words : list pystr) :
  primary_key t -> primary_key (store_all U t words).
Proof.
  revert t. induction words as [|word words IH]; intros t Ht; [done|].
  rewrite store_all_cons. apply IH. by apply store_word_primary_key.
Qed.

Lemma store_all_taken (U : unicode_db) (t : list row)
      (words : list pystr) (word : pystr) :
  has_word t word = true ->
  rows_of word (store_all U t words) = rows_of word t.
Proof.
  revert t. induction words as [|x words IH]; intros t Ht; [done|].
  rewrite store_all_cons, IH; [by apply rows_of_store_word_taken|].
  by rewrite has_word_store_word, Ht.
Qed.

Lemma store_all_new (U : unicode_db) (t : list row)
      (words : list pystr) (word : pystr) :
  word ∈ words -> has_word t word = false -> storable U word = true ->
  rows_of word (store_all U t words) = [scored_row U word].
Proof.
  revert t. induction words as [|x words IH]; intros t Hin Ht Hs.
  - by apply elem_of_nil in Hin.
  - rewrite store_all_cons.
    destruct (decide (x = word)) as [->|Hne].
    + rewrite store_all_taken.
      * unfold store_word. rewrite Hs.
        by apply (rows_of_insert_same (scored_row U word)).
      * rewrite has_word_store_word, Hs.
        by rewrite bool_decide_eq_true_2, orb_true_r.
    + apply elem_of_cons in Hin as [->|Hin]; [done|].
      apply IH; [done| |done]. rewrite has_word_store_word, Ht.
      by rewrite bool_decide_eq_false_2, andb_false_r.
Qed.

(** C7 (no text).  When the extension is neither [.csv] nor [.txt], or the
    reader of the format raises, [extract_text] returns the empty string
    and logs one warning or error; [process_file] then finds no word: it
    returns, and nothing but that one log record has changed. *)
Theorem no_text_no_words (U : unicode_db) (fs : filesystem)
        (file_path : pystr) (w : world) :
  let file_ext := file_ext_of U file_path in
  (is_csv file_ext = false /\ is_txt file_ext = false)
  \/ (is_csv file_ext = true /\ exists e, read_csv fs file_path = Raised e)
  \/ (is_csv file_ext = false /\ is_txt file_ext = true
      /\ exists e, read_txt fs file_path = Raised e) ->
  exists rec : log_record,
    let w' := {| table := table w; report := report w ++ [rec];
                 faults := faults w |} in
    level_of rec <> INFO
    /\ extract_text U fs file_path w = (Returned [], w')
    /\ elements (words_of U []) = []
    /\ process_file U fs file_path w = (Returned tt, w').
Proof.
  intros file_ext H.
  assert (exists rec, level_of rec <> INFO
            /\ extract_text U fs file_path w
               = (Returned [],
                  {| table := table w; report := report w ++ [rec];
                     faults := faults w |})) as (rec & Hl & E).
  { unfold extract_text. fold file_ext.
    destruct H as [[-> ->]|[[-> [e ->]]|(-> & -> & [e ->])]].
    - by exists (UnsupportedFormat file_ext).
    - by exists (FileError file_path e).
    - by exists (FileError file_path e). }
  exists rec. split_and!; [done|done|reflexivity|].
  unfold process_file, bind. by rewrite E.
Qed.

Lemma no_text_no_words_witness :
  exists rec : log_record,
    level_of rec <> INFO
    /\ extract_text ucd_excerpt (fs_with (py "Cat cat")) (py "notes.PDF") (fresh [])
       = (Returned [], {| table := Some []; report := [rec]; faults := [] |})
    /\ elements (words_of ucd_excerpt []) = []
    /\ process_file ucd_excerpt (fs_with (py "Cat cat")) (py "notes.PDF") (fresh [])
       = (Returned tt, {| table := Some []; report := [rec]; faults := [] |}).
Proof.
  apply (no_text_no_words ucd_excerpt (fs_with (py "Cat cat"))
                          (py "notes.PDF") (fresh [])).
  left. split; vm_compute; reflexivity.
Defined.

(** Two ASCII words that agree letter by letter up to case lower to the
    same string. *)
Lemma lower_ascii_case_variants (U : unicode_db) (t1 t2 : pystr) :
  forallb is_ascii t1 = true -> forallb is_ascii t2 = true ->
  map lowercase_codepoint t1 = map lowercase_codepoint t2 ->
  lower U t1 = lower U t2.
Proof. intros H1 H2 E. by rewrite !lower_ascii. Qed.

(** Two different words of the text that are equal once lowercased have
    equal scores and, when their rows can be bound and neither is in the
    table yet, get a row each on sound storage. *)
Lemma lower_equal_words_two_rows (U : unicode_db) (fs : filesystem)
        (file_path text t1 t2 : pystr) (w : world) (t : list row) :
  healthy w -> table w = Some t -> primary_key t ->
  (extract_text U fs file_path w).1 = Returned text ->
  t1 ∈ words_of U text -> t2 ∈ words_of U text ->
  t1 <> t2 -> lower U t1 = lower U t2 ->
  has_word t t1 = false -> has_word t t2 = false ->
  storable U t1 = true -> storable U t2 = true ->
  calculate_gematria U t1 = calculate_gematria U t2
  /\ calculate_hebrew_gematria U t1 = calculate_hebrew_gematria U t2
  /\ calculate_english_gematria U t1 = calculate_english_gematria U t2
  /\ exists (w' : world) (t' : list row),
       process_file U fs file_path w = (Returned tt, w')
       /\ table w' = Some t' /\ primary_key t'
       /\ rows_of t1 t' = [scored_row U t1]
       /\ rows_of t2 t' = [scored_row U t2]
       /\ scored_row U t1 <> scored_row U t2.
Proof.
  intros Hw Ht Hkey Htext H1 H2 Hne Hlow Hn1 Hn2 Hs1 Hs2.
  unfold calculate_gematria, calculate_hebrew_gematria,
    calculate_english_gematria. rewrite Hlow. split_and!; try reflexivity.
  destruct (extract_text_frame U fs file_path w) as (text' & recs & E).
  rewrite E in Htext. cbn [fst] in Htext. injection Htext as ->.
  set (w0 := {| table := table w; report := report w ++ recs;
                faults := faults w |}) in *.
  destruct (for_each_process_word U (elements (words_of U text)) w0 t)
    as (w' & Ew' & _ & Ht' & _); [done|done|].
  exists w', (store_all U t (elements (words_of U text))).
  split_and!.
  - unfold process_file, bind. by rewrite E.
  - done.
  - by apply store_all_primary_key.
  - apply store_all_new; [by apply elem_of_elements|done|done].
  - apply store_all_new; [by apply elem_of_elements|done|done].
  - intros Heq. apply Hne. by injection Heq.
Qed.

(** C8 (case).  The claim: two tokens that differ only in letter case are
    stored under their own spelling, as two rows, with equal simple,
    Hebrew and English scores.  The two rows are there, and the Hebrew and
    English scores agree.  The simple scores need not: "aΣ" and "aσ" are
    both words of the text, differ in the case of their last letter only,
    and score 867 and 868, the capital sigma lowering to the final sigma
    at the end of its word. *)
Theorem case_variants_sigma_scores_differ :
  let t1 := py "a" ++ [CAPITAL_SIGMA] in
  let t2 := py "a" ++ [SMALL_SIGMA] in
  let text := t1 ++ py " " ++ t2 in
  let after := (process_file ucd_excerpt (fs_with text) (py "in.txt") (fresh [])).2 in
  words_of ucd_excerpt text = {[ t1; t2 ]}
  /\ t1 <> t2
  /\ same_up_to_case ucd_excerpt t1 t2 = true
  /\ calculate_gematria ucd_excerpt t1 = 867
  /\ calculate_gematria ucd_excerpt t2 = 868
  /\ calculate_hebrew_gematria ucd_excerpt t1 = 1
  /\ calculate_hebrew_gematria ucd_excerpt t2 = 1
  /\ calculate_english_gematria ucd_excerpt t1 = 6
  /\ calculate_english_gematria ucd_excerpt t2 = 6
  /\ rows_of t1 (default [] (table after)) = [row_of t1 867 1 6]
  /\ rows_of t2 (default [] (table after)) = [row_of t2 868 1 6].
Proof. split_and!; [vm_compute; reflexivity|discriminate|vm_compute; reflexivity..]. Qed.

(** When the storage refuses the connection, [insert_word] logs the error
    and then fails in its [finally] clause, where [conn] is not bound. *)
Lemma insert_word_connect_fails (w : world) (fs : list fault)
      (word : pystr) (s h e : Z) :
  faults w = ConnectFails :: fs ->
  insert_word word s h e w
  = (Raised (UnboundLocalError "conn"),
     {| table := table w;
        report := report w
                  ++ [InsertError (OperationalError "unable to open database file")];
        faults := fs |}).
Proof.
  intros Hf. unfold insert_word, sqlite3_connect. rewrite Hf. reflexivity.
Qed.

(** C4 (failures).  The claim: every failure is caught where it arises and
    logged, none ends the run, and after a failed insert the remaining
    words are still processed.  A failing statement is indeed caught (last
    part: with "a b" and a failing INSERT, one word is lost, the other
    stored, and the run returns).  A connection that cannot be opened is
    not: [insert_word] logs it and then raises [UnboundLocalError] from its
    [finally] clause; the exception leaves [process_file] and [main], and
    the other word of "a b" is never stored nor reported.  In
    [create_database] the connection is opened outside the [try], and the
    failure leaves [main] at once. *)
Theorem connect_failure_ends_the_run :
  insert_word (py "a") 1 1 6 (fresh [ConnectFails])
  = (Raised (UnboundLocalError "conn"),
     {| table := Some [];
        report := [InsertError (OperationalError "unable to open database file")];
        faults := [] |})
  /\ process_file ucd_excerpt (fs_with (py "a b")) (py "in.txt")
                  (fresh [ConnectFails])
     = (Raised (UnboundLocalError "conn"),
        {| table := Some [];
           report := [InsertError (OperationalError "unable to open database file")];
           faults := [] |})
  /\ (main ucd_excerpt (fs_with (py "a b")) (py "in.txt")
           {| table := None; report := []; faults := [NoFault; ConnectFails] |}).1
     = Raised (UnboundLocalError "conn")
  /\ main ucd_excerpt (fs_with (py "a b")) (py "in.txt")
          {| table := None; report := []; faults := [ConnectFails] |}
     = (Raised (OperationalError "unable to open database file"),
        {| table := None; report := []; faults := [] |})
  /\ (process_file ucd_excerpt (fs_with (py "a b")) (py "in.txt")
                   (fresh [ExecuteFails])).1
     = Returned tt.
Proof. split_and!; vm_compute; reflexivity. Qed.

(** * Further properties *)

(** ** The value tables *)

Lemma english_values_keys (c v : Z) :
  english_values !! c = Some v -> ascii_lower c = true /\ v = 6 * (c - 96).
Proof.
  intros H. apply elem_of_list_to_map_2, list_elem_of_In in H.
  cbn [In] in H.
  repeat (destruct H as [H|H]; [injection H as <- <-; by vm_compute|]).
  done.
Qed.

Lemma hebrew_values_keys (c v : Z) :
  hebrew_values !! c = Some v -> ascii_lower c = true /\ 1 <= v <= 900.
Proof.
  intros H. apply elem_of_list_to_map_2, list_elem_of_In in H.
  cbn [In] in H.
  repeat (destruct H as [H|H]; [injection H as <- <-; by vm_compute|]).
  done.
Qed.

Lemma subscript_english (c : Z) :
  subscript english_values c = if ascii_lower c then 6 * (c - 96) else 0.
Proof.
  unfold subscript. destruct (ascii_lower c) eqn:E.
  - by rewrite (english_values_a_to_z c E).
  - destruct (english_values !! c) as [v|] eqn:Ev; [|done].
    apply english_values_keys in Ev as [Ev _]. congruence.
Qed.

Lemma subscript_hebrew_bounds (c : Z) :
  0 <= subscript hebrew_values c <= 900
  /\ (ascii_lower c = true -> 1 <= subscript hebrew_values c).
Proof.
  unfold subscript. destruct (hebrew_values !! c) as [v|] eqn:Ev.
  - apply hebrew_values_keys in Ev as [_ Hv]. cbn. unfold id.
    split; [lia|intros _; lia].
  - cbn. split; [lia|]. intros H%hebrew_values_a_to_z.
    unfold contains in H. apply bool_decide_eq_true in H as [v Hv]. congruence.
Qed.

Lemma sum_map_bounds (f : Z -> Z) (a b : Z) (l : list Z) :
  (forall x, x ∈ l -> a <= f x <= b) ->
  a * Z.of_nat (length l) <= sum (map f l) <= b * Z.of_nat (length l).
Proof.
  induction l as [|x l IH]; intros H.
  - cbn [map length]. rewrite sum_nil. lia.
  - cbn [map length]. rewrite sum_cons.
    assert (a <= f x <= b) by (apply H; apply elem_of_cons; by left).
    assert (forall y, y ∈ l -> a <= f y <= b) as Hl
      by (intros y Hy; apply H; apply elem_of_cons; by right).
    specialize (IH Hl). lia.
Qed.

Lemma sum_map_nonneg (f : Z -> Z) (l : list Z) :
  (forall x, 0 <= f x) -> 0 <= sum (map f l).
Proof.
  intros H. induction l as [|x l IH]; [cbn [map]; by rewrite sum_nil|].
  cbn [map]. rewrite sum_cons. specialize (H x). lia.
Qed.

Lemma sum_Permutation (l k : list Z) : Permutation l k -> sum l = sum k.
Proof.
  induction 1 as [|x l k _ IH|x y l|l k m _ IH1 _ IH2];
    rewrite ?sum_cons; lia.
Qed.

Lemma forallb_Permutation (p : Z -> bool) (l k : list Z) :
  Permutation l k -> forallb p l = forallb p k.
Proof.
  induction 1 as [|x l k _ IH|x y l|l k m _ IH1 _ IH2]; cbn [forallb];
    [done|by rewrite IH|by destruct (p x), (p y)|congruence].
Qed.

(** The value of one ASCII code point under the two tables. *)
Lemma letter_value_ascii (U : unicode_db) (d : gmap Z Z) (c : Z) :
  is_ascii c = true ->
  letter_value U d c = subscript d (lowercase_codepoint c).
Proof.
  intros Hc. unfold letter_value, tolower_full.
  rewrite (is_ascii_not_sigma c Hc), Hc, table_score_all.
  cbn [map]. rewrite sum_cons, sum_nil. unfold lowercase_codepoint. lia.
Qed.

Lemma ascii_lower_lowercase (c : Z) :
  ascii_lower (lowercase_codepoint c) = ascii_letter c.
Proof.
  destruct (ascii_letter c) eqn:E; [by apply lowercase_of_letter|].
  unfold ascii_letter in E. apply orb_false_iff in E as [Eu El].
  unfold lowercase_codepoint. by rewrite Eu.
Qed.

(** ** More on the scorers *)

Lemma english_gematria_ascii (U : unicode_db) (word : pystr) :
  forallb is_ascii word = true ->
  calculate_english_gematria U word = 6 * calculate_gematria U word.
Proof.
  intros H. rewrite english_gematria_letterwise, (calculate_gematria_ascii U word H).
  unfold simpleScore. induction word as [|c w IH]; [done|].
  cbn [forallb] in H. apply andb_true_iff in H as [Hc Hw].
  cbn [map]. rewrite !sum_cons, (IH Hw), (letter_value_ascii U _ c Hc).
  rewrite subscript_english, ascii_lower_lowercase.
  change (ord "a") with 97. destruct (ascii_letter c); lia.
Qed.

(** X1.  On a word of ASCII characters, letters or not, the English score
    is six times the simple score. *)
Theorem english_six_times_simple_ascii (U : unicode_db) (word : pystr) :
  forallb is_ascii word = true ->
  calculate_english_gematria U word = 6 * calculate_gematria U word.
Proof. exact (english_gematria_ascii U word). Qed.

Lemma english_six_times_simple_ascii_witness :
  forallb is_ascii (py "Abe, Cain & 2 others") = true
  /\ calculate_english_gematria ucd_excerpt (py "Abe, Cain & 2 others")
     = 6 * calculate_gematria ucd_excerpt (py "Abe, Cain & 2 others").
Proof.
  split; [reflexivity|].
  apply (english_six_times_simple_ascii ucd_excerpt). reflexivity.
Defined.

(** X2.  The Hebrew and the English score are never negative.  On a word
    of ASCII characters of length n the simple score lies between 0 and
    26 n, the Hebrew score is at most 900 n and the English one at most
    156 n; when all n characters are letters, the simple and the Hebrew
    score are at least n. *)
Theorem score_bounds (U : unicode_db) (word : pystr) :
  let n := Z.of_nat (length word) in
  0 <= calculate_hebrew_gematria U word
  /\ 0 <= calculate_english_gematria U word
  /\ (forallb is_ascii word = true ->
      0 <= calculate_gematria U word <= 26 * n
      /\ calculate_hebrew_gematria U word <= 900 * n
      /\ calculate_english_gematria U word <= 156 * n)
  /\ (forallb ascii_letter word = true ->
      n <= calculate_gematria U word /\ n <= calculate_hebrew_gematria U word).
Proof.
  intros n.
  assert (Hs : forall c, 0 <= (if ascii_letter c
                               then lowercase_codepoint c - ord "a" + 1 else 0) <= 26).
  { intros c. pose proof (ascii_lower_lowercase c) as E.
    destruct (ascii_letter c); [|lia].
    apply in_range_spec in E. change (ord "a") with 97. lia. }
  split_and!.
  - unfold calculate_hebrew_gematria. fold (table_score hebrew_values (lower U word)).
    rewrite table_score_all. apply sum_map_nonneg.
    intros c. apply subscript_hebrew_bounds.
  - unfold calculate_english_gematria. fold (table_score english_values (lower U word)).
    rewrite table_score_all. apply sum_map_nonneg.
    intros c. rewrite subscript_english. destruct (ascii_lower c) eqn:E; [|lia].
    apply in_range_spec in E. lia.
  - intros H.
    assert (0 <= calculate_gematria U word <= 26 * n) as Hsimple.
    { rewrite (calculate_gematria_ascii U word H). unfold simpleScore.
      pose proof (sum_map_bounds _ 0 26 word (fun c _ => Hs c)). lia. }
    split; [done|]. split; [|rewrite (english_gematria_ascii U word H); lia].
    rewrite hebrew_gematria_letterwise.
    apply (sum_map_bounds _ 0 900 word). intros c Hc.
    rewrite forallb_forall in H. rewrite letter_value_ascii.
    + apply subscript_hebrew_bounds.
    + apply H. by apply list_elem_of_In.
  - intros H.
    assert (Ha : forallb is_ascii word = true).
    { rewrite forallb_forall in *. intros c Hc. by apply ascii_letter_is_ascii, H. }
    rewrite forallb_forall in H. split.
    + rewrite (calculate_gematria_ascii U word Ha). unfold simpleScore.
      assert (1 * n <= sum (map (fun c => if ascii_letter c
                 then lowercase_codepoint c - ord "a" + 1 else 0) word)); [|lia].
      apply (sum_map_bounds _ 1 26 word). intros c Hc%list_elem_of_In.
      pose proof (Hs c). pose proof (lowercase_of_letter c (H c Hc)) as E.
      rewrite (H c Hc) in *. apply in_range_spec in E.
      change (ord "a") with 97 in *. lia.
    + rewrite hebrew_gematria_letterwise.
      assert (1 * n <= sum (map (letter_value U hebrew_values) word)); [|lia].
      apply (sum_map_bounds _ 1 900 word). intros c Hc%list_elem_of_In.
      rewrite letter_value_ascii by (by apply ascii_letter_is_ascii, H).
      pose proof (subscript_hebrew_bounds (lowercase_codepoint c)) as [Hb Hl].
      specialize (Hl (lowercase_of_letter c (H c Hc))). lia.
Qed.

Lemma score_bounds_witness :
  forallb is_ascii (py "Cain") = true
  /\ forallb ascii_letter (py "Cain") = true
  /\ 4 <= calculate_gematria ucd_excerpt (py "Cain") <= 26 * 4
  /\ 4 <= calculate_hebrew_gematria ucd_excerpt (py "Cain") <= 900 * 4
  /\ calculate_english_gematria ucd_excerpt (py "Cain") <= 156 * 4.
Proof.
  destruct (score_bounds ucd_excerpt (py "Cain")) as (_ & _ & Hup & Hlow).
  specialize (Hup eq_refl). specialize (Hlow eq_refl).
  cbn [length py map list_ascii_of_string] in Hup, Hlow.
  split; [reflexivity|]. split; [reflexivity|].
  destruct Hup as ([_ H1] & H2 & H3). destruct Hlow as [H4 H5].
  split; [split; [exact H4|exact H1]|].
  split; [split; [exact H5|exact H2]|exact H3].
Defined.

(** X3.  Anagrams score alike: the Hebrew and the English score of a word
    do not depend on the order of its characters, and neither does the
    simple score of a word of ASCII characters. *)
Theorem anagrams_score_alike (U : unicode_db) (u v : pystr) :
  Permutation u v ->
  calculate_hebrew_gematria U u = calculate_hebrew_gematria U v
  /\ calculate_english_gematria U u = calculate_english_gematria U v
  /\ (forallb is_ascii u = true ->
      calculate_gematria U u = calculate_gematria U v).
Proof.
  intros H. split_and!.
  - rewrite !hebrew_gematria_letterwise. by apply sum_Permutation, Permutation_map.
  - rewrite !english_gematria_letterwise. by apply sum_Permutation, Permutation_map.
  - intros Hu. rewrite !calculate_gematria_ascii;
      [|by rewrite <- (forallb_Permutation is_ascii u v H)|done].
    by apply sum_Permutation, Permutation_map.
Qed.

Lemma anagrams_score_alike_witness :
  calculate_hebrew_gematria ucd_excerpt (py "evil")
  = calculate_hebrew_gematria ucd_excerpt (py "vile")
  /\ calculate_english_gematria ucd_excerpt (py "evil")
     = calculate_english_gematria ucd_excerpt (py "vile")
  /\ (forallb is_ascii (py "evil") = true ->
      calculate_gematria ucd_excerpt (py "evil")
      = calculate_gematria ucd_excerpt (py "vile")).
Proof.
  apply (anagrams_score_alike ucd_excerpt (py "evil") (py "vile")).
  change (Permutation [101; 118; 105; 108] [118; 105; 108; 101]).
  apply (Permutation_cons_append [118; 105; 108] 101).
Defined.

(** ** More on the tokens *)

Lemma split_from_delimited (cur text token : pystr) :
  token ∈ split_from cur text ->
  exists pre post,
    rev cur ++ text = pre ++ token ++ post
    /\ edge_or_space (last pre) = true /\ edge_or_space (head post) = true.
Proof.
  revert cur. induction text as [|c text IH]; intros cur.
  - cbn [split_from]. destruct cur as [|x cur]; [by intros ?%elem_of_nil|].
    intros ->%list_elem_of_singleton. exists [], []. by rewrite !app_nil_r.
  - cbn [split_from]. destruct (isspace c) eqn:Hc.
    + assert (token ∈ split_from [] text ->
              exists pre post,
                rev cur ++ c :: text = pre ++ token ++ post
                /\ edge_or_space (last pre) = true
                /\ edge_or_space (head post) = true) as Hrest.
      { intros (pre & post & E & Hpre & Hpost)%IH. cbn [rev app] in E.
        exists (rev cur ++ c :: pre), post. split_and!; [|  |done].
        - rewrite E, <- app_assoc. reflexivity.
        - rewrite last_app, last_cons. by destruct (last pre). }
      destruct cur as [|x cur]; [done|].
      intros [->|H]%elem_of_cons; [|by apply Hrest].
      exists [], (c :: text). split_and!; [done|done|by cbn].
    + intros (pre & post & E & Hpre & Hpost)%IH.
      exists pre, post. split_and!; [|done|done].
      rewrite <- E. cbn [rev]. by rewrite <- app_assoc.
Qed.

Lemma split_token_then (token post : pystr) :
  token <> [] -> Forall not_space token ->
  edge_or_space (head post) = true -> token ∈ split (token ++ post).
Proof.
  intros Hne Ht Hpost. unfold split. destruct post as [|s q].
  - rewrite app_nil_r, (split_from_token [] token Ht Hne). by left.
  - cbn in Hpost. rewrite (split_from_space [] token q s Hpost). unfold split.
    rewrite (split_from_token [] token Ht Hne). by left.
Qed.

(** X4.  The tokens of [text.split()] are exactly the non-empty runs of
    characters without white space that have, on either side, white space
    or an end of the text. *)
Theorem split_tokens_delimited_runs (text token : pystr) :
  token ∈ split text
  <-> token <> [] /\ Forall not_space token
      /\ exists pre post,
           text = pre ++ token ++ post
           /\ edge_or_space (last pre) = true
           /\ edge_or_space (head post) = true.
Proof.
  split.
  - intros H. destruct (split_from_tokens [] text token) as [Hne Ht]; [done|done|].
    split; [done|]. split; [done|]. by apply (split_from_delimited []).
  - intros (Hne & Ht & pre & post & -> & Hpre & Hpost).
    destruct (last pre) as [s|] eqn:E.
    + apply last_Some in E as [p ->]. cbn in Hpre.
      rewrite <- app_assoc. cbn [app]. unfold split.
      rewrite (split_from_space [] p _ s Hpre). apply elem_of_app. right.
      by apply split_token_then.
    + apply last_None in E as ->. cbn [app]. by apply split_token_then.
Qed.

Lemma split_tokens_delimited_runs_witness :
  py "DOG" ∈ split (py "cat DOG 123").
Proof.
  apply (split_tokens_delimited_runs (py "cat DOG 123") (py "DOG")).
  split; [discriminate|]. split; [repeat constructor|].
  exists (py "cat "), (py " 123"). split_and!; reflexivity.
Defined.

(** X5.  White space cuts a text in two independent halves: the words of
    the whole are the words of the part before together with the words of
    the part after. *)
Theorem words_of_union (U : unicode_db) (u v : pystr) (s : Z) :
  isspace s = true ->
  words_of U (u ++ s :: v) = words_of U u ∪ words_of U v.
Proof.
  intros Hs. unfold words_of, split.
  by rewrite (split_from_space [] u v s Hs), List.filter_app, list_to_set_app_L.
Qed.

Lemma words_of_union_witness :
  isspace 10 = true
  /\ words_of ucd_excerpt (py "Abe Cain" ++ 10 :: py "Cain 7")
     = words_of ucd_excerpt (py "Abe Cain") ∪ words_of ucd_excerpt (py "Cain 7").
Proof.
  split; [reflexivity|].
  apply (words_of_union ucd_excerpt (py "Abe Cain") (py "Cain 7") 10).
  reflexivity.
Defined.

(** ** More on the store *)

(** What [insert_word] does, case by case: the connection is refused; the
    statement fails; there is no table; a parameter cannot be bound; the
    commit fails; all goes well. *)
Lemma insert_word_outcome (w : world) (word : pystr) (s h e : Z) :
  insert_word word s h e w
  = match next_fault w with
    | ConnectFails =>
        (Raised (UnboundLocalError "conn"),
         after_connection (table w) (report w ++ [InsertError cannot_open]) w)
    | ExecuteFails =>
        (Returned tt,
         after_connection (table w) (report w ++ [InsertError io_error]) w)
    | f =>
        match table w with
        | None =>
            (Returned tt,
             after_connection None (report w ++ [InsertError no_table]) w)
        | Some t =>
            match bind_parameters (row_of word s h e) with
            | Some ex =>
                (Returned tt,
                 after_connection (Some t) (report w ++ [InsertError ex]) w)
            | None =>
                if is_commit_fault f
                then (Returned tt,
                      after_connection (Some t)
                                       (report w ++ [InsertError io_error]) w)
                else (Returned tt,
                      after_connection
                        (Some (insert_or_ignore (row_of word s h e) t))
                        (report w) w)
            end
        end
    end.
Proof.
  destruct w as [tb rp fl]. unfold next_fault, insert_word, sqlite3_connect.
  unfold bind, execute_insert, commit, except, finally, close, ret, raise, logger.
  change {| row_word := word; simple_gematria := s;
            hebrew_gematria := h; english_gematria := e |}
    with (row_of word s h e).
  destruct fl as [|[] fl]; destruct tb; cbn;
    try reflexivity; destruct (bind_parameters (row_of word s h e)); reflexivity.
Qed.

Lemma create_database_outcome (w : world) :
  create_database w
  = match next_fault w with
    | ConnectFails =>
        (Raised cannot_open, after_connection (table w) (report w) w)
    | ExecuteFails =>
        (Returned tt,
         after_connection (table w) (report w ++ [CreateError io_error]) w)
    | _ =>
        (Returned tt,
         after_connection (Some (default [] (table w))) (report w) w)
    end.
Proof.
  destruct w as [tb rp fl]. unfold next_fault.
  destruct fl as [|[] fl]; destruct tb; reflexivity.
Qed.

(** X6.  A failed insert is reported once and changes nothing: when the
    connection opens but the statement or the commit fails, or the table
    does not exist, [insert_word] returns, logs exactly one error and
    leaves the table as it was. *)
Theorem insert_word_failure_is_reported (w : world) (word : pystr) (s h e : Z) :
  next_fault w <> ConnectFails ->
  next_fault w <> NoFault \/ table w = None ->
  exists ex : exn,
    insert_word word s h e w
    = (Returned tt, after_connection (table w) (report w ++ [InsertError ex]) w).
Proof.
  intros Hc Hf. rewrite insert_word_outcome.
  destruct (next_fault w); [|done| |].
  - destruct Hf as [Hf | ->]; [done|]. by exists no_table.
  - by exists io_error.
  - destruct (table w); [|by exists no_table].
    destruct (bind_parameters _) as [ex|]; [by exists ex|by exists io_error].
Qed.

Lemma insert_word_failure_is_reported_witness :
  exists ex : exn,
    insert_word (py "cat") 24 104 144
                {| table := Some [row_of (py "dog") 26 61 156];
                   report := []; faults := [CommitFails; NoFault] |}
    = (Returned tt,
       {| table := Some [row_of (py "dog") 26 61 156];
          report := [InsertError ex]; faults := [NoFault] |}).
Proof.
  apply (insert_word_failure_is_reported
           {| table := Some [row_of (py "dog") 26 61 156];
              report := []; faults := [CommitFails; NoFault] |}).
  - discriminate.
  - left. discriminate.
Defined.

(** X7.  Whatever the storage does, [insert_word] leaves the rows of every
    other word as they are, leaves a table that holds the word unchanged,
    keeps the primary key, and never creates the table. *)
Theorem insert_word_frame (w : world) (word : pystr) (s h e : Z) :
  match table w, table (insert_word word s h e w).2 with
  | Some t, Some t' =>
      (forall other, other <> word -> rows_of other t' = rows_of other t)
      /\ (has_word t word = true -> t' = t)
      /\ (primary_key t -> primary_key t')
  | None, None => True
  | _, _ => False
  end.
Proof.
  rewrite insert_word_outcome.
  assert (forall t, (forall other, other <> word -> rows_of other t = rows_of other t)
                    /\ (has_word t word = true -> t = t)
                    /\ (primary_key t -> primary_key t)) as Hsame by done.
  destruct (next_fault w), (table w) as [t|]; cbn; try done;
    destruct (bind_parameters _); cbn; try done.
  split_and!.
  - intros other Hne. apply rows_of_insert_other. cbn. congruence.
  - intros H. by apply insert_or_ignore_present.
  - apply primary_key_insert.
Qed.

Lemma insert_word_frame_witness :
  table (insert_word (py "dog") 1 2 3
           {| table := Some [row_of (py "dog") 26 61 156];
              report := []; faults := [] |}).2
  = Some [row_of (py "dog") 26 61 156].
Proof.
  pose proof (insert_word_frame
                {| table := Some [row_of (py "dog") 26 61 156];
                   report := []; faults := [] |} (py "dog") 1 2 3) as H.
  cbn [table] in H.
  destruct (table (insert_word _ _ _ _ _).2) as [t'|]; [|done].
  destruct H as (_ & H & _). f_equal. apply H. reflexivity.
Defined.

(** ** More on the pipeline *)

Lemma connects_next (w : world) (t : option (list row)) (l : list log_record) :
  connects w ->
  next_fault w <> ConnectFails /\ connects (after_connection t l w).
Proof.
  unfold connects, next_fault, after_connection. cbn [faults].
  destruct (faults w) as [|f fl]; [done|]. by intros [? ?]%Forall_cons.
Qed.

Lemma has_word_app (t u : list row) (word : pystr) :
  has_word (t ++ u) word = has_word t word || has_word u word.
Proof. apply existsb_app. Qed.

(** One turn of the loop: the connection is used up; the table is as it
    was, or has gained the row of the word at its end; while connections
    open, the turn returns and logs one [Processed] record; the only
    exception it can raise is the one of the unbound [conn]. *)
Lemma process_word_step (U : unicode_db) (word : pystr) (w : world) :
  exists (r : outcome unit) (tb : option (list row)) (recs : list log_record),
    process_word U word w = (r, after_connection tb (report w ++ recs) w)
    /\ (tb = table w
        \/ exists t, table w = Some t /\ has_word t word = false
                     /\ tb = Some (t ++ [scored_row U word]))
    /\ (next_fault w <> ConnectFails ->
        r = Returned tt /\ List.filter is_info recs = [processed U word])
    /\ (forall ex, r = Raised ex -> ex = UnboundLocalError "conn").
Proof.
  unfold process_word, bind. rewrite insert_word_outcome.
  fold (processed U word).
  change (row_of word _ _ _) with (scored_row U word).
  assert (forall (t : option (list row)) (ex : exn),
            logger (processed U word)
                   (after_connection t (report w ++ [InsertError ex]) w)
            = (Returned tt,
               after_connection t
                 (report w ++ [InsertError ex; processed U word]) w)) as Hlog.
  { intros t ex. unfold logger, after_connection. cbn. by rewrite <- app_assoc. }
  destruct (next_fault w) eqn:Ef.
  - destruct (table w) as [t|] eqn:Et.
    + destruct (bind_parameters (scored_row U word)) as [ex|].
      { exists (Returned tt), (Some t), [InsertError ex; processed U word].
        split_and!; [apply Hlog|by left|done|done]. }
      cbn [is_commit_fault]. unfold insert_or_ignore. cbn [scored_row row_word].
      destruct (has_word t word) eqn:Eh.
      * exists (Returned tt), (Some t), [processed U word].
        split_and!; [done|by left|done|done].
      * exists (Returned tt), (Some (t ++ [scored_row U word])), [processed U word].
        split_and!; [done|right; by exists t|done|done].
    + exists (Returned tt), None, [InsertError no_table; processed U word].
      split_and!; [apply Hlog|by left|done|done].
  - exists (Raised (UnboundLocalError "conn")), (table w), [InsertError cannot_open].
    split_and!; [done|by left|done|by intros ex [= <-]].
  - exists (Returned tt), (table w), [InsertError io_error; processed U word].
    split_and!; [apply Hlog|by left|done|done].
  - destruct (table w) as [t|] eqn:Et.
    + destruct (bind_parameters (scored_row U word)) as [ex|].
      * exists (Returned tt), (Some t), [InsertError ex; processed U word].
        split_and!; [apply Hlog|by left|done|done].
      * exists (Returned tt), (Some t), [InsertError io_error; processed U word].
        split_and!; [apply Hlog|by left|done|done].
    + exists (Returned tt), None, [InsertError no_table; processed U word].
      split_and!; [apply Hlog|by left|done|done].
Qed.

(** The whole loop, under any behaviour of the storage. *)
Lemma for_each_steps (U : unicode_db) (words : list pystr) (w : world) :
  exists (r : outcome unit) (w' : world) (extra : list pystr)
         (recs : list log_record),
    for_each words (process_word U) w = (r, w')
    /\ table w' = (fun t => t ++ map (scored_row U) extra) <$> table w
    /\ report w' = report w ++ recs
    /\ sublist extra words
    /\ (forall t x, table w = Some t -> x ∈ extra -> has_word t x = false)
    /\ (connects w ->
        r = Returned tt /\ connects w'
        /\ List.filter is_info recs = map (processed U) words)
    /\ (forall ex, r = Raised ex -> ex = UnboundLocalError "conn").
Proof.
  revert w. induction words as [|word words IH]; intros w.
  - exists (Returned tt), w, [], []. split_and!; try done.
    + destruct (table w); cbn; by rewrite ?app_nil_r.
    + by rewrite app_nil_r.
    + by intros ? ? _ ?%elem_of_nil.
  - destruct (process_word_step U word w) as (r1 & tb & recs1 & E1 & Htb & Hr1 & Hex1).
    cbn [for_each]. unfold bind at 1. rewrite E1.
    destruct r1 as [[]|ex1].
    + destruct (IH (after_connection tb (report w ++ recs1) w))
        as (r & w' & extra & recs & E & Ht & Hrep & Hsub & Hnew & Hok & Hex).
      cbn [table report after_connection] in Ht, Hrep, Hnew.
      destruct Htb as [->|(t & Et & Eh & ->)].
      * exists r, w', extra, (recs1 ++ recs).
        split_and!; [done|done|by rewrite Hrep, app_assoc|by apply sublist_cons|done| |done].
        intros Hw. destruct (connects_next w (table w) (report w ++ recs1) Hw)
          as [Hn Hw1].
        destruct (Hok Hw1) as (-> & Hw' & Hinfo). destruct (Hr1 Hn) as [_ Hi].
        split_and!; [done|done|].
        rewrite List.filter_app, Hi, Hinfo. reflexivity.
      * exists r, w', (word :: extra), (recs1 ++ recs).
        split_and!; [done| |by rewrite Hrep, app_assoc|by apply sublist_skip| | |done].
        -- rewrite Ht, Et. cbn. by rewrite <- app_assoc.
        -- intros t0 x Et0 [->|Hx]%elem_of_cons; [congruence|].
           assert (t0 = t) as -> by congruence.
           specialize (Hnew _ x eq_refl Hx).
           rewrite has_word_app in Hnew. by apply orb_false_iff in Hnew as [? _].
        -- intros Hw.
           destruct (connects_next w (Some (t ++ [scored_row U word]))
                                   (report w ++ recs1) Hw) as [Hn Hw1].
           destruct (Hok Hw1) as (-> & Hw' & Hinfo). destruct (Hr1 Hn) as [_ Hi].
           split_and!; [done|done|].
           rewrite List.filter_app, Hi, Hinfo. reflexivity.
    + destruct Htb as [->|(t & Et & Eh & ->)].
      * exists (Raised ex1), (after_connection (table w) (report w ++ recs1) w),
          [], recs1.
        split_and!; [done| |done|apply sublist_nil_l|by intros ? ? _ ?%elem_of_nil| |done].
        -- cbn. destruct (table w); cbn; by rewrite ?app_nil_r.
        -- intros Hw. destruct (connects_next w None [] Hw) as [Hn _].
           by destruct (Hr1 Hn).
      * exists (Raised ex1),
          (after_connection (Some (t ++ [scored_row U word])) (report w ++ recs1) w),
          [word], recs1.
        split_and!; [done|by rewrite Et| done| |  | |done].
        -- apply sublist_skip, sublist_nil_l.
        -- intros t0 x Et0 ->%list_elem_of_singleton. congruence.
        -- intros Hw. destruct (connects_next w None [] Hw) as [Hn _].
           by destruct (Hr1 Hn).
Qed.

Lemma extract_text_outcome (U : unicode_db) (fs : filesystem)
        (file_path : pystr) :
  exists (text : pystr) (recs : list log_record),
    (forall w, extract_text U fs file_path w = (Returned text, with_report w recs))
    /\ (recs = []
        \/ exists rec, recs = [rec] /\ level_of rec <> INFO /\ text = []).
Proof.
  unfold extract_text, with_report.
  destruct (is_csv _); [|destruct (is_txt _)].
  - destruct (read_csv fs file_path) as [text|e].
    + exists text, []. split; [|by left]. intros w. by rewrite app_nil_r, world_eta.
    + exists [], [FileError file_path e]. split; [done|]. right. by eexists.
  - destruct (read_txt fs file_path) as [text|e].
    + exists text, []. split; [|by left]. intros w. by rewrite app_nil_r, world_eta.
    + exists [], [FileError file_path e]. split; [done|]. right. by eexists.
  - exists [], [UnsupportedFormat (file_ext_of U file_path)].
    split; [done|]. right. by eexists.
Qed.

(** X8.  [extract_text] returns for every path and every behaviour of the
    readers: it touches nothing but the log, the text it returns does not
    depend on the world, it logs at most one record, never an [INFO] one,
    and when it logs one the text is empty. *)
Theorem extract_text_always_returns (U : unicode_db) (fs : filesystem)
        (file_path : pystr) :
  exists (text : pystr) (recs : list log_record),
    (forall w, extract_text U fs file_path w = (Returned text, with_report w recs))
    /\ (recs = []
        \/ exists rec, recs = [rec] /\ level_of rec <> INFO /\ text = []).
Proof. exact (extract_text_outcome U fs file_path). Qed.

(** The text [extract_text] returns in one world, it returns in every
    world, and what it logs holds no [INFO] record. *)
Lemma extract_text_elsewhere (U : unicode_db) (fs : filesystem)
      (file_path text : pystr) (w : world) :
  (extract_text U fs file_path w).1 = Returned text ->
  exists recs,
    List.filter is_info recs = []
    /\ forall w', extract_text U fs file_path w' = (Returned text, with_report w' recs).
Proof.
  destruct (extract_text_outcome U fs file_path) as (text' & recs & E & Hrecs).
  rewrite E. intros [= ->]. exists recs. split; [|done].
  destruct Hrecs as [->|(rec & -> & Hl & _)]; [done|].
  cbn. unfold is_info. by destruct (level_of rec).
Qed.

(** What [process_file] does to the table and the log, under any
    behaviour of the storage. *)
Lemma process_file_steps (U : unicode_db) (fs : filesystem)
      (file_path text : pystr) (w : world) :
  (extract_text U fs file_path w).1 = Returned text ->
  exists (r : outcome unit) (w' : world) (extra : list pystr)
         (recs : list log_record),
    process_file U fs file_path w = (r, w')
    /\ table w' = (fun t => t ++ map (scored_row U) extra) <$> table w
    /\ report w' = report w ++ recs
    /\ sublist extra (elements (words_of U text))
    /\ (forall t x, table w = Some t -> x ∈ extra -> has_word t x = false)
    /\ (connects w ->
        r = Returned tt /\ connects w'
        /\ List.filter is_info recs = map (processed U) (elements (words_of U text)))
    /\ (forall ex, r = Raised ex -> ex = UnboundLocalError "conn").
Proof.
  intros (recs0 & Hinfo0 & E)%extract_text_elsewhere.
  destruct (for_each_steps U (elements (words_of U text)) (with_report w recs0))
    as (r & w' & extra & recs & Ef & Ht & Hrep & Hsub & Hnew & Hok & Hex).
  exists r, w', extra, (recs0 ++ recs).
  split_and!; try done.
  - unfold process_file, bind. by rewrite E.
  - rewrite Hrep. cbn. by rewrite app_assoc.
  - intros Hw. destruct (Hok Hw) as (-> & Hw' & Hi).
    split_and!; [done|done|]. by rewrite List.filter_app, Hinfo0, Hi.
Qed.

Lemma main_returns_while_connected
        (U : unicode_db) (fs : filesystem) (file text : pystr) (w : world) :
  connects w ->
  (extract_text U fs file w).1 = Returned text ->
  exists (w' : world) (recs : list log_record),
    main U fs file w = (Returned tt, w')
    /\ report w' = report w ++ recs
    /\ List.filter is_info recs = map (processed U) (elements (words_of U text)).
Proof.
  intros Hw Htext. unfold main, bind. rewrite create_database_outcome.
  apply extract_text_elsewhere in Htext as (recs0 & _ & E0).
  set (wa := fun t l => after_connection t l w).
  assert (forall t l, List.filter is_info l = [] ->
            exists w' recs,
              process_file U fs file (wa t (report w ++ l)) = (Returned tt, w')
              /\ report w' = report w ++ recs
              /\ List.filter is_info recs
                 = map (processed U) (elements (words_of U text))) as Hrun.
  { intros t l Hl.
    destruct (process_file_steps U fs file text (wa t (report w ++ l)))
      as (r & w' & extra & recs & E & _ & Hrep & _ & _ & Hok & _);
      [by rewrite E0|].
    destruct (connects_next w t (report w ++ l) Hw) as [_ Hw1].
    destruct (Hok Hw1) as (-> & _ & Hi).
    exists w', (l ++ recs). split_and!; [done|by rewrite Hrep, app_assoc|].
    by rewrite List.filter_app, Hl, Hi. }
  destruct (connects_next w None [] Hw) as [Hn _].
  destruct (next_fault w); [|done| |].
  - destruct (Hrun (Some (default [] (table w))) []) as (w' & recs & E & ? & ?);
      [done|]. rewrite app_nil_r in E. by exists w', recs.
  - destruct (Hrun (table w) [CreateError io_error]) as (w' & recs & E & ? & ?);
      [done|]. by exists w', recs.
  - destruct (Hrun (Some (default [] (table w))) []) as (w' & recs & E & ? & ?);
      [done|]. rewrite app_nil_r in E. by exists w', recs.
Qed.

(** X9.  While no connection is refused, [main] returns whatever else
    fails, and its log gains exactly one [Processed] record per distinct
    word of the text, stored or not. *)
Theorem main_completes_while_connections_open
        (U : unicode_db) (fs : filesystem) (file text : pystr) (w : world) :
  connects w ->
  (extract_text U fs file w).1 = Returned text ->
  exists (w' : world) (recs : list log_record),
    main U fs file w = (Returned tt, w')
    /\ report w' = report w ++ recs
    /\ List.filter is_info recs = map (processed U) (elements (words_of U text)).
Proof. exact (main_returns_while_connected U fs file text w). Qed.

Lemma main_completes_while_connections_open_witness :
  exists (w' : world) (recs : list log_record),
    main ucd_excerpt (fs_with (py "Abe Cain Abe")) (py "in.txt")
         {| table := None; report := [];
            faults := [ExecuteFails; NoFault; CommitFails] |}
    = (Returned tt, w')
    /\ report w' = [] ++ recs
    /\ List.filter is_info recs
       = map (processed ucd_excerpt)
             (elements (words_of ucd_excerpt (py "Abe Cain Abe"))).
Proof.
  apply (main_completes_while_connections_open
           ucd_excerpt (fs_with (py "Abe Cain Abe")) (py "in.txt")
           (py "Abe Cain Abe")
           {| table := None; report := [];
              faults := [ExecuteFails; NoFault; CommitFails] |}).
  - repeat constructor; discriminate.
  - vm_compute. reflexivity.
Defined.

(** X10.  Only two exceptions can leave [main]: the [OperationalError] of
    the connection [create_database] opens outside its [try], and the
    [UnboundLocalError] of [insert_word]; either means that the storage
    refused a connection. *)
Theorem main_raises_only_on_refused_connection
        (U : unicode_db) (fs : filesystem) (file : pystr) (w : world) (ex : exn) :
  (main U fs file w).1 = Raised ex ->
  (ex = cannot_open \/ ex = UnboundLocalError "conn") /\ ~ connects w.
Proof.
  intros H. split.
  - revert H. unfold main, bind. rewrite create_database_outcome.
    destruct (extract_text_outcome U fs file) as (text & recs0 & E & _).
    assert (forall w0, (process_file U fs file w0).1 = Raised ex ->
                       ex = UnboundLocalError "conn") as Hp.
    { intros w0 H0.
      destruct (process_file_steps U fs file text w0)
        as (r & w' & extra & recs & Ep & _ & _ & _ & _ & _ & Hex);
        [by rewrite E|].
      rewrite Ep in H0. by apply Hex. }
    destruct (next_fault w); try (intros H%Hp; by right).
    intros [= <-]. by left.
  - intros Hw.
    destruct (extract_text_outcome U fs file) as (text & recs0 & E & _).
    destruct (main_returns_while_connected U fs file text w Hw)
      as (w' & recs & Em & _); [by rewrite E|].
    by rewrite Em in H.
Qed.

Lemma main_raises_only_on_refused_connection_witness :
  (UnboundLocalError "conn" = cannot_open
   \/ UnboundLocalError "conn" = UnboundLocalError "conn")
  /\ ~ connects {| table := None; report := []; faults := [NoFault; ConnectFails] |}.
Proof.
  apply (main_raises_only_on_refused_connection
           ucd_excerpt (fs_with (py "a b")) (py "in.txt")
           {| table := None; report := []; faults := [NoFault; ConnectFails] |}).
  vm_compute. reflexivity.
Defined.

(** What [main] does to the table, under any behaviour of the storage. *)
Lemma main_table (U : unicode_db) (fs : filesystem) (file text : pystr) (w : world) :
  (extract_text U fs file w).1 = Returned text ->
  exists extra : list pystr,
    sublist extra (elements (words_of U text))
    /\ (forall x, x ∈ extra -> has_word (table_or_empty w) x = false)
    /\ match table (main U fs file w).2 with
       | Some t' => t' = table_or_empty w ++ map (scored_row U) extra
       | None => table w = None
       end.
Proof.
  intros Htext. unfold main, bind, table_or_empty.
  rewrite create_database_outcome.
  apply extract_text_elsewhere in Htext as (recs0 & _ & E0).
  assert (forall t l,
            (t = table w \/ t = Some (default [] (table w))) ->
            exists extra,
              sublist extra (elements (words_of U text))
              /\ (forall x, x ∈ extra -> has_word (default [] (table w)) x = false)
              /\ match table (process_file U fs file (after_connection t l w)).2 with
                 | Some t' => t' = default [] (table w) ++ map (scored_row U) extra
                 | None => table w = None
                 end) as Hrun.
  { intros t l Ht.
    destruct (process_file_steps U fs file text (after_connection t l w))
      as (r & w' & extra & recs & E & Htb & _ & Hsub & Hnew & _ & _);
      [by rewrite E0|].
    rewrite E. cbn [snd]. rewrite Htb. cbn [table after_connection] in *.
    destruct t as [t|].
    - exists extra. split; [done|].
      assert (t = default [] (table w)) as <-
        by (destruct Ht as [<-|[= <-]]; done).
      split; [intros x; by apply Hnew|done].
    - exists []. split; [apply sublist_nil_l|]. split; [by intros ? ?%elem_of_nil|].
      cbn. by destruct Ht as [<-|?]. }
  destruct (next_fault w).
  - apply Hrun. by right.
  - exists []. split; [apply sublist_nil_l|]. split; [by intros ? ?%elem_of_nil|].
    cbn. destruct (table w); cbn; by rewrite ?app_nil_r.
  - apply Hrun. by left.
  - apply Hrun. by right.
Qed.

Lemma main_appends
        (U : unicode_db) (fs : filesystem) (file text : pystr) (w : world) :
  (extract_text U fs file w).1 = Returned text ->
  match table (main U fs file w).2 with
  | Some t' =>
      exists extra : list pystr,
        t' = table_or_empty w ++ map (scored_row U) extra
        /\ NoDup extra
        /\ forall x, x ∈ extra ->
             x ∈ words_of U text /\ has_word (table_or_empty w) x = false
  | None => table w = None
  end.
Proof.
  intros (extra & Hsub & Hnew & Ht)%(main_table U).
  destruct (table (main U fs file w).2) as [t'|]; [|done].
  exists extra. split; [done|]. split.
  - apply (sublist_NoDup extra (elements (words_of U text)));
      [apply NoDup_elements|done].
  - intros x Hx. split; [|by apply Hnew].
    apply elem_of_elements. by apply (elem_of_sublist extra).
Qed.

(** X11.  Whatever the storage does and however the run ends, [main]
    loses and changes no row: the table afterwards is the table before (an
    empty one if there was none) followed by new rows, each the scored row
    of a word of the text that had no row.  There is no table afterwards
    only if there was none before. *)
Theorem main_only_appends_scored_words
        (U : unicode_db) (fs : filesystem) (file text : pystr) (w : world) :
  (extract_text U fs file w).1 = Returned text ->
  match table (main U fs file w).2 with
  | Some t' =>
      exists extra : list pystr,
        t' = table_or_empty w ++ map (scored_row U) extra
        /\ NoDup extra
        /\ forall x, x ∈ extra ->
             x ∈ words_of U text /\ has_word (table_or_empty w) x = false
  | None => table w = None
  end.
Proof. exact (main_appends U fs file text w). Qed.

Lemma main_only_appends_scored_words_witness :
  match table (main ucd_excerpt (fs_with (py "Abe Cain")) (py "in.txt")
                    {| table := Some [scored_row ucd_excerpt (py "Abe")];
                       report := []; faults := [NoFault; CommitFails] |}).2 with
  | Some t' =>
      exists extra : list pystr,
        t' = [scored_row ucd_excerpt (py "Abe")]
             ++ map (scored_row ucd_excerpt) extra
        /\ NoDup extra
        /\ forall x, x ∈ extra ->
             x ∈ words_of ucd_excerpt (py "Abe Cain")
             /\ has_word [scored_row ucd_excerpt (py "Abe")] x = false
  | None => @None (list row) = None
  end.
Proof.
  apply (main_only_appends_scored_words
           ucd_excerpt (fs_with (py "Abe Cain")) (py "in.txt") (py "Abe Cain")
           {| table := Some [scored_row ucd_excerpt (py "Abe")];
              report := []; faults := [NoFault; CommitFails] |}).
  vm_compute. reflexivity.
Defined.

Lemma map_row_word_scored (U : unicode_db) (l : list pystr) :
  map row_word (map (scored_row U) l) = l.
Proof. induction l as [|x l IH]; [done|]. cbn. by rewrite IH. Qed.

(** X12.  [main] keeps the primary key under any behaviour of the storage:
    if no two rows shared their word before, none do afterwards. *)
Theorem main_keeps_primary_key
        (U : unicode_db) (fs : filesystem) (file : pystr) (w : world) (t' : list row) :
  primary_key (table_or_empty w) ->
  table (main U fs file w).2 = Some t' ->
  primary_key t'.
Proof.
  intros Hkey Ht'.
  destruct (extract_text_outcome U fs file) as (text & recs & E & _).
  pose proof (main_appends U fs file text w) as H.
  rewrite E, Ht' in H. destruct H as (extra & -> & Hnd & Hnew); [done|].
  unfold primary_key in *. rewrite map_app, map_row_word_scored.
  apply NoDup_app. split_and!; [done| |done].
  intros x Hx Hx'. destruct (Hnew x Hx') as [_ Hf].
  apply has_word_false in Hf. by apply Hf.
Qed.

Lemma main_keeps_primary_key_witness :
  primary_key [scored_row ucd_excerpt (py "Abe"); scored_row ucd_excerpt (py "Cain")].
Proof.
  apply (main_keeps_primary_key
           ucd_excerpt (fs_with (py "Abe Cain")) (py "in.txt")
           {| table := Some [scored_row ucd_excerpt (py "Abe")];
              report := []; faults := [ExecuteFails] |}).
  - apply (bool_decide_unpack _). vm_compute. exact I.
  - vm_compute. reflexivity.
Defined.

(** ** Runs on sound storage *)

Lemma healthy_next (w : world) (t : option (list row)) (l : list log_record) :
  healthy w -> next_fault w = NoFault /\ healthy (after_connection t l w).
Proof.
  intros H. split; [|by apply healthy_tail].
  unfold healthy, next_fault in *. destruct (faults w) as [|f fl]; [done|].
  by apply Forall_cons in H as [<- _].
Qed.

Lemma has_word_store_all (U : unicode_db) (t : list row) (ws : list pystr) (x : pystr) :
  has_word (store_all U t ws) x = true
  <-> has_word t x = true \/ (x ∈ ws /\ storable U x = true).
Proof.
  revert t. induction ws as [|y ws IH]; intros t.
  - cbn. rewrite elem_of_nil. tauto.
  - rewrite store_all_cons, IH, has_word_store_word, orb_true_iff,
      andb_true_iff, bool_decide_eq_true, elem_of_cons.
    split.
    + intros [[?|[? ->]]|[? ?]]; auto.
    + intros [?|[[->|?] ?]]; auto.
Qed.

Lemma store_all_present (U : unicode_db) (t : list row) (ws : list pystr) :
  (forall x, x ∈ ws -> storable U x = true -> has_word t x = true) ->
  store_all U t ws = t.
Proof.
  induction ws as [|y ws IH]; intros H; [done|].
  rewrite store_all_cons.
  assert (store_word U t y = t) as ->.
  { unfold store_word. destruct (storable U y) eqn:Hs; [|done].
    apply insert_or_ignore_present. apply H; [|done]. apply elem_of_cons. by left. }
  apply IH. intros x Hx. apply H. apply elem_of_cons. by right.
Qed.

(** On sound storage [main] returns, having stored the words in turn. *)
Lemma main_healthy (U : unicode_db) (fs : filesystem) (file text : pystr) (w : world) :
  healthy w ->
  (extract_text U fs file w).1 = Returned text ->
  exists w',
    main U fs file w = (Returned tt, w')
    /\ healthy w'
    /\ table w' = Some (store_all U (table_or_empty w) (elements (words_of U text))).
Proof.
  intros Hw (recs0 & _ & E)%extract_text_elsewhere.
  unfold main, bind. rewrite create_database_outcome.
  destruct (healthy_next w (Some (default [] (table w))) (report w) Hw) as [-> Hw1].
  unfold process_file, bind. rewrite E.
  destruct (for_each_process_word U (elements (words_of U text))
              (with_report (after_connection (Some (default [] (table w)))
                                             (report w) w) recs0)
              (default [] (table w)))
    as (w' & Ef & Hw' & Ht & _); [done|done|].
  by exists w'.
Qed.



(** X14.  Running the program again on the same input, on sound storage,
    changes nothing in the table. *)
Theorem rerun_changes_nothing
        (U : unicode_db) (fs : filesystem) (file : pystr) (w : world) :
  healthy w ->
  exists w1 w2 : world,
    main U fs file w = (Returned tt, w1)
    /\ main U fs file w1 = (Returned tt, w2)
    /\ table w2 = table w1.
Proof.
  intros Hw.
  destruct (extract_text_outcome U fs file) as (text & recs & E & _).
  destruct (main_healthy U fs file text w Hw) as (w1 & E1 & Hw1 & Ht1);
    [by rewrite E|].
  destruct (main_healthy U fs file text w1 Hw1) as (w2 & E2 & _ & Ht2);
    [by rewrite E|].
  exists w1, w2. split; [done|]. split; [done|].
  rewrite Ht2. unfold table_or_empty at 1. rewrite Ht1. cbn [default].
  f_equal. apply store_all_present.
  intros x Hx Hs. apply has_word_store_all. by right.
Qed.

Lemma rerun_changes_nothing_witness :
  exists w1 w2 : world,
    main ucd_excerpt (fs_with (py "Abe Cain")) (py "in.txt")
         {| table := None; report := []; faults := [] |} = (Returned tt, w1)
    /\ main ucd_excerpt (fs_with (py "Abe Cain")) (py "in.txt") w1
       = (Returned tt, w2)
    /\ table w2 = table w1.
Proof.
  apply (rerun_changes_nothing ucd_excerpt (fs_with (py "Abe Cain")) (py "in.txt")
           {| table := None; report := []; faults := [] |}).
  constructor.
Defined.

(** Storing distinct words comes to appending the rows of the new ones. *)
Lemma store_all_new_words (U : unicode_db) (t : list row) (ws : list pystr) :
  NoDup ws ->
  store_all U t ws = t ++ map (scored_row U) (new_words U t ws).
Proof.
  revert t. induction ws as [|x ws IH]; intros t Hnd.
  - cbn. by rewrite app_nil_r.
  - apply NoDup_cons in Hnd as [Hx Hnd].
    rewrite store_all_cons, (IH _ Hnd). unfold new_words, store_word, insert_or_ignore.
    cbn [List.filter scored_row row_word].
    destruct (storable U x) eqn:Hs; [|by rewrite andb_false_r].
    destruct (has_word t x) eqn:E; cbn [negb andb]; [done|].
    cbn [map]. rewrite <- app_assoc. cbn [app]. do 3 f_equal.
    apply filter_ext_in. intros y Hy%list_elem_of_In.
    rewrite has_word_app.
    assert (has_word [scored_row U x] y = false) as ->; [|by rewrite orb_false_r].
    unfold has_word. cbn [existsb scored_row row_word].
    rewrite bool_decide_eq_false_2; [done|]. by intros ->.
Qed.

Lemma new_words_Permutation (U : unicode_db) (t : list row) (ws ws' : list pystr) :
  Permutation ws ws' -> Permutation (new_words U t ws) (new_words U t ws').
Proof.
  unfold new_words.
  induction 1 as [|x l k _ IH|x y l|l k m _ IH1 _ IH2]; cbn [List.filter].
  - done.
  - destruct (negb (has_word t x) && storable U x); by rewrite IH.
  - destruct (negb (has_word t x) && storable U x),
      (negb (has_word t y) && storable U y); try done.
    apply perm_swap.
  - by etrans.
Qed.

(** X15.  The order in which the words are taken does not matter: on sound
    storage, two runs of the loop over the same distinct words in different
    orders both return, and leave tables that hold the same rows, the rows
    that were there first and in place. *)
Theorem word_order_does_not_matter
        (U : unicode_db) (ws ws' : list pystr) (w : world) (t : list row) :
  healthy w -> table w = Some t -> NoDup ws -> Permutation ws ws' ->
  exists (w1 w2 : world) (new1 new2 : list row),
    for_each ws (process_word U) w = (Returned tt, w1)
    /\ for_each ws' (process_word U) w = (Returned tt, w2)
    /\ table w1 = Some (t ++ new1) /\ table w2 = Some (t ++ new2)
    /\ Permutation new1 new2.
Proof.
  intros Hw Ht Hnd Hp.
  assert (Hnd' : NoDup ws') by (by rewrite <- Hp).
  destruct (for_each_process_word U ws w t Hw Ht) as (w1 & E1 & _ & Ht1 & _).
  destruct (for_each_process_word U ws' w t Hw Ht) as (w2 & E2 & _ & Ht2 & _).
  rewrite (store_all_new_words U t ws Hnd) in Ht1.
  rewrite (store_all_new_words U t ws' Hnd') in Ht2.
  exists w1, w2, (map (scored_row U) (new_words U t ws)),
    (map (scored_row U) (new_words U t ws')).
  split_and!; try done.
  by apply Permutation_map, new_words_Permutation.
Qed.

Lemma word_order_does_not_matter_witness :
  exists (w1 w2 : world) (new1 new2 : list row),
    for_each [py "Abe"; py "Cain"] (process_word ucd_excerpt) (fresh [])
    = (Returned tt, w1)
    /\ for_each [py "Cain"; py "Abe"] (process_word ucd_excerpt) (fresh [])
       = (Returned tt, w2)
    /\ table w1 = Some ([] ++ new1) /\ table w2 = Some ([] ++ new2)
    /\ Permutation new1 new2.
Proof.
  apply (word_order_does_not_matter ucd_excerpt [py "Abe"; py "Cain"]
           [py "Cain"; py "Abe"] (fresh []) []).
  - constructor.
  - reflexivity.
  - apply (bool_decide_unpack _). vm_compute. exact I.
  - apply perm_swap.
Defined.

(** The loop while there is no table, on storage that is otherwise sound. *)
Lemma for_each_no_table (U : unicode_db) (ws : list pystr) (w : world) :
  healthy w -> table w = None ->
  exists w',
    for_each ws (process_word U) w = (Returned tt, w')
    /\ healthy w' /\ table w' = None
    /\ report w' = report w ++ flat_map (rejected U) ws.
Proof.
  revert w. induction ws as [|x ws IH]; intros w Hw Ht.
  - exists w. by rewrite app_nil_r.
  - cbn [for_each]. unfold bind at 1. unfold process_word, bind.
    rewrite insert_word_outcome.
    destruct (healthy_next w None
                (report w ++ [InsertError no_table] ++ [processed U x]) Hw)
      as [-> Hw1].
    rewrite Ht. unfold logger. cbn [table report faults after_connection].
    rewrite <- app_assoc.
    destruct (IH _ Hw1 eq_refl) as (w' & E & Hw' & Ht' & Hrep).
    exists w'. split_and!; [apply E|done|done|].
    rewrite Hrep. cbn [report after_connection flat_map rejected].
    by rewrite <- !app_assoc.
Qed.

(** X16.  Without the table (say [create_database] has failed) and with
    storage that is otherwise sound, [process_file] still returns: it
    stores nothing, creates no table, and logs for every word of the text
    an error for the missing table followed by the [Processed] record. *)
Theorem process_file_without_table
        (U : unicode_db) (fs : filesystem) (file text : pystr) (w w0 : world) :
  healthy w -> table w = None ->
  extract_text U fs file w = (Returned text, w0) ->
  exists w',
    process_file U fs file w = (Returned tt, w')
    /\ table w' = None
    /\ report w' = report w0 ++ flat_map (rejected U) (elements (words_of U text)).
Proof.
  intros Hw Ht E.
  assert (healthy w0 /\ table w0 = None) as [Hw0 Ht0].
  { destruct (extract_text_frame U fs file w) as (text' & recs & E').
    rewrite E in E'. injection E' as _ ->. by split. }
  destruct (for_each_no_table U (elements (words_of U text)) w0 Hw0 Ht0)
    as (w' & Ef & _ & Ht' & Hrep).
  exists w'. split; [|done]. unfold process_file, bind. by rewrite E.
Qed.

Lemma process_file_without_table_witness :
  exists w',
    process_file ucd_excerpt (fs_with (py "Abe")) (py "in.txt")
                 {| table := None; report := []; faults := [] |}
    = (Returned tt, w')
    /\ table w' = None
    /\ report w' = [] ++ flat_map (rejected ucd_excerpt)
                                  (elements (words_of ucd_excerpt (py "Abe"))).
Proof.
  apply (process_file_without_table ucd_excerpt (fs_with (py "Abe")) (py "in.txt")
           (py "Abe") {| table := None; report := []; faults := [] |}
           {| table := None; report := []; faults := [] |}).
  - constructor.
  - reflexivity.
  - vm_compute. reflexivity.
Defined.

(** ** Letters only, whatever their case *)

Lemma lowercase_codepoint_idem (c : Z) :
  lowercase_codepoint (lowercase_codepoint c) = lowercase_codepoint c.
Proof.
  unfold lowercase_codepoint, ascii_upper.
  destruct (in_range 65 90 c) eqn:E; [|by rewrite E].
  apply in_range_spec in E.
  destruct (in_range 65 90 (c + 32)) eqn:E'; [|done].
  apply in_range_spec in E'. lia.
Qed.

Lemma letters_of_ascii (word : pystr) :
  forallb is_ascii (letters_of word) = true.
Proof.
  unfold letters_of. induction word as [|c w IH]; [done|].
  cbn [List.filter]. destruct (ascii_letter c) eqn:E; [|done].
  cbn [map forallb]. rewrite IH, andb_true_r.
  by apply lowercase_codepoint_ascii, ascii_letter_is_ascii.
Qed.

Lemma simpleScore_letters_of (word : pystr) :
  simpleScore (letters_of word) = simpleScore word.
Proof.
  unfold simpleScore, letters_of. induction word as [|c w IH]; [done|].
  cbn [List.filter]. destruct (ascii_letter c) eqn:E.
  - cbn [map]. rewrite !sum_cons, IH, E.
    by rewrite ascii_letter_lowercase, E, lowercase_codepoint_idem.
  - cbn [map]. rewrite sum_cons, IH, E. lia.
Qed.

Lemma table_letters_of (U : unicode_db) (d : gmap Z Z) (word : pystr) :
  (forall c v, d !! c = Some v -> ascii_lower c = true) ->
  forallb is_ascii word = true ->
  sum (map (letter_value U d) (letters_of word))
  = sum (map (letter_value U d) word).
Proof.
  intros Hkeys. unfold letters_of. induction word as [|c w IH]; [done|].
  cbn [forallb]. intros [Hc Hw]%andb_true_iff.
  cbn [List.filter]. destruct (ascii_letter c) eqn:E.
  - cbn [map]. rewrite !sum_cons, (IH Hw).
    rewrite !letter_value_ascii, ?lowercase_codepoint_idem;
      [done|done|by apply lowercase_codepoint_ascii].
  - cbn [map]. rewrite sum_cons, (IH Hw), (letter_value_ascii U d c Hc).
    unfold subscript. destruct (d !! lowercase_codepoint c) as [v|] eqn:Ev; [|cbn; lia].
    apply Hkeys in Ev. rewrite ascii_lower_lowercase in Ev. congruence.
Qed.

(** X17.  In a word of ASCII characters only the letters count, and their
    case does not: each of the three scores of the word is the score of
    the word with everything but its letters dropped and the letters
    lowercased. *)
Theorem only_letters_count (U : unicode_db) (word : pystr) :
  forallb is_ascii word = true ->
  calculate_gematria U word = calculate_gematria U (letters_of word)
  /\ calculate_hebrew_gematria U word
     = calculate_hebrew_gematria U (letters_of word)
  /\ calculate_english_gematria U word
     = calculate_english_gematria U (letters_of word).
Proof.
  intros H. split_and!.
  - rewrite !calculate_gematria_ascii; [|apply letters_of_ascii|done].
    by rewrite simpleScore_letters_of.
  - rewrite !hebrew_gematria_letterwise, table_letters_of; [done| |done].
    intros c v Hv. by apply hebrew_values_keys in Hv as [? _].
  - rewrite !english_gematria_letterwise, table_letters_of; [done| |done].
    intros c v Hv. by apply english_values_keys in Hv as [? _].
Qed.

Lemma only_letters_count_witness :
  letters_of (py "Cain's 2nd e-mail!") = py "cainsndemail"
  /\ calculate_gematria ucd_excerpt (py "Cain's 2nd e-mail!")
     = calculate_gematria ucd_excerpt (py "cainsndemail")
  /\ calculate_hebrew_gematria ucd_excerpt (py "Cain's 2nd e-mail!")
     = calculate_hebrew_gematria ucd_excerpt (py "cainsndemail")
  /\ calculate_english_gematria ucd_excerpt (py "Cain's 2nd e-mail!")
     = calculate_english_gematria ucd_excerpt (py "cainsndemail").
Proof.
  split; [reflexivity|].
  apply (only_letters_count ucd_excerpt (py "Cain's 2nd e-mail!")).
  reflexivity.
Defined.
